(** * Player connection graph of the Tennis Web data pipeline

    A shallow embedding of [process_tennis_web_data.py]: the three relation
    extractors, the graph merger, the popular-player selector and the
    assembly of the persisted document in [main], followed by the
    properties of the connection graph and of the candidate list.

    Modelling conventions.
    - Player ids are integers ([Z]); [str(player_id)] is [pretty].
    - A Python [set] is a [gset]; [list(s)] is [elements s] (Python fixes no
      listing order for a set, no statement below depends on one).
    - A Python [dict] whose iteration order is never observed by a
      statement is a [gmap]; [players_data], whose iteration order decides
      ties of the ranking, is the list of its items in insertion order.
    - A [defaultdict] lookup is a lookup with [default].
    - A cell of the match table is [None] when pandas holds NaN there.
    - A field of a player's dictionary is [None] when the key is absent and
      holds a [PyVal] when it is present: Python's [None], NaN, a string or
      a number. Numbers are integers. NaN is the one object [numpy.nan] that
      pandas puts in an empty cell, so as a dictionary key it is found
      again.
    - A function that may raise returns an [option], [None] for the
      exception; [main] ends in one of three ways, [Exit].
    - The clock read by [main] is an argument of [main]. *)

From stdpp Require Import base option list gmap sets strings pretty sorting.

Open Scope Z_scope.

(** ** Data model *)

(** A row of [matches_df]. *)
Record MatchRow := {
  m_winner_id : option Z;
  m_loser_id : option Z;
  m_tourney_name : option string;
  m_year : Z;
  m_surface : option string;
  m_round : option string;
  m_score : option string
}.

(** A value stored under a key of a player's dictionary. *)
Inductive PyVal :=
  | VNone
  | VNaN
  | VStr (s : string)
  | VInt (z : Z).

Definition PyVal_encode (v : PyVal) : (unit + unit) + (string + Z) :=
  match v with
  | VNone => inl (inl ())
  | VNaN => inl (inr ())
  | VStr s => inr (inl s)
  | VInt z => inr (inr z)
  end.

Definition PyVal_decode (e : (unit + unit) + (string + Z)) : PyVal :=
  match e with
  | inl (inl _) => VNone
  | inl (inr _) => VNaN
  | inr (inl s) => VStr s
  | inr (inr z) => VInt z
  end.

Definition PyVal_decode_encode (v : PyVal) : PyVal_decode (PyVal_encode v) = v :=
  match v with
  | VNone => eq_refl
  | VNaN => eq_refl
  | VStr _ => eq_refl
  | VInt _ => eq_refl
  end.

#[global] Instance PyVal_eq_dec : EqDecision PyVal :=
  λ x y,
    match decide (PyVal_encode x = PyVal_encode y) with
    | left H =>
        left (eq_trans (eq_sym (PyVal_decode_encode x))
                (eq_trans (f_equal PyVal_decode H) (PyVal_decode_encode y)))
    | right H => right (λ e, H (f_equal PyVal_encode e))
    end.

#[global] Instance PyVal_countable : Countable PyVal :=
  inj_countable' PyVal_encode PyVal_decode PyVal_decode_encode.

(** A value of [players_data]: every key may be absent. *)
Record PlayerData := {
  p_name : option PyVal;
  p_country : option PyVal;
  p_hand : option PyVal;
  p_height : option PyVal;
  p_birth_year : option PyVal;
  p_titles : option PyVal
}.

(** An entry of [gs_finals]. *)
Record FinalRecord := {
  f_tournament : string;
  f_winner_name : string;
  f_loser_name : string
}.

(** The [match_info] dictionary stored per player. In [mi_year], [None]
    stands for the empty string that [year or ''] gives for year 0. *)
Record MatchInfo := {
  mi_opponent_id : Z;
  mi_tournament : option string;
  mi_year : option Z;
  mi_surface : string;
  mi_round : option string;
  mi_score : option string;
  mi_result : string
}.

(** The [player_info] dictionary of a candidate. *)
Record PlayerInfo := {
  pi_id : Z;
  pi_name : PyVal;
  pi_country : PyVal;
  pi_hand : PyVal;
  pi_height : PyVal;
  pi_birth_year : PyVal;
  pi_titles : PyVal;
  pi_connections : nat
}.

(** The per-vertex [connections] dictionary of the merged graph. *)
Record Connections := {
  direct_opponents : list Z;
  same_country : list Z;
  same_hand : list Z;
  similar_height : list Z;
  same_birth_year : list Z;
  same_tournament : list Z;
  total_connections : nat
}.

Record Metadata := {
  md_total_players : nat;
  md_total_matches : nat;
  md_data_range : string;
  md_generated_on : string;
  md_connection_types : list string
}.

(** The document handed to [json.dump]. *)
Record Document := {
  doc_players : list PlayerInfo;
  doc_connections : gmap string Connections;
  doc_player_details : gmap string PlayerData;
  doc_match_details : gmap string (list MatchInfo);
  doc_metadata : Metadata
}.

(** ** Python helpers *)

(** Truth value of a string, of an integer, and of a table cell (NaN is
    true in Python). *)
Definition truthy_str (s : string) : bool := bool_decide (s ≠ "").
Definition truthy_int (z : Z) : bool := bool_decide (z ≠ 0).
Definition truthy_cell (c : option string) : bool :=
  match c with None => true | Some s => truthy_str s end.

(** [c or ''] on a cell. *)
Definition or_empty (c : option string) : option string :=
  if truthy_cell c then c else Some "".

(** Truth value of a value of a player's dictionary. *)
Definition truthy (v : PyVal) : bool :=
  match v with
  | VNone => false
  | VNaN => true
  | VStr s => truthy_str s
  | VInt z => truthy_int z
  end.

(** [data.get(key)] followed by a truth test: the value when the key is
    there and its value is true. *)
Definition get_truthy (o : option PyVal) : option PyVal :=
  match o with
  | Some v => if truthy v then Some v else None
  | None => None
  end.

(** A loop whose body may raise: the first exception ends it. *)
Definition foldl_raise {A B} (body : A → B → option A) (a : A) (l : list B)
    : option A :=
  foldl (λ acc x, acc ≫= λ a, body a x) (Some a) l.

(** [str] of a cell inside an f-string. *)
Definition cell_str (c : option string) : string :=
  match c with None => "nan" | Some s => s end.

(** [d[k].add(v)] on a [defaultdict(set)]. *)
Definition dd_add `{Countable K} `{Countable V}
    (d : gmap K (gset V)) (k : K) (v : V) : gmap K (gset V) :=
  <[k := default ∅ (d !! k) ∪ {[v]}]> d.

(** [d[k].append(x)] on a [defaultdict(list)]. *)
Definition dd_append `{Countable K} {A}
    (d : gmap K (list A)) (k : K) (x : A) : gmap K (list A) :=
  <[k := default [] (d !! k) ++ [x]]> d.

(** [d[p][kind] = v] on a [defaultdict] of dictionaries. *)
Definition dd_set2 {A} (d : gmap Z (gmap string A)) (p : Z) (kind : string)
    (v : A) : gmap Z (gmap string A) :=
  <[p := <[kind := v]> (default ∅ (d !! p))]> d.

(** [d[p][kind].add(v)] on a [defaultdict] of [defaultdict(set)]. *)
Definition dd_add2 (d : gmap Z (gmap string (gset Z))) (p : Z) (kind : string)
    (v : Z) : gmap Z (gmap string (gset Z)) :=
  <[p := dd_add (default ∅ (d !! p)) kind v]> d.

(** [d.get(p, {}).get(kind, [])]. *)
Definition get2 {A} (d : gmap Z (gmap string (list A))) (p : Z)
    (kind : string) : list A :=
  default [] (default ∅ (d !! p) !! kind).

(** [players_data[player_id]] and [player_id in players_data]. *)
Fixpoint pd_get (players_data : list (Z * PlayerData)) (player_id : Z)
    : option PlayerData :=
  match players_data with
  | [] => None
  | (k, data) :: rest =>
      if bool_decide (k = player_id) then Some data else pd_get rest player_id
  end.

(** The nested loop
    [for i, player1 in enumerate(l): for player2 in l[i+1:]: body]. *)
Fixpoint for_pairs {A S} (body : S → A → A → S) (l : list A) (st : S) : S :=
  match l with
  | [] => st
  | player1 :: rest =>
      for_pairs body rest (foldl (λ st player2, body st player1 player2) st rest)
  end.

(** ** Head-to-Head extractor *)

(** The [match_info] stored for the winner of a row, and its copy for the
    loser. *)
Definition match_info_of (m : MatchRow) (loser_id : Z) : MatchInfo :=
  {| mi_opponent_id := loser_id;
     mi_tournament := or_empty (m_tourney_name m);
     mi_year := if truthy_int (m_year m) then Some (m_year m) else None;
     mi_surface := default "" (m_surface m);
     mi_round := or_empty (m_round m);
     mi_score := or_empty (m_score m);
     mi_result := "W" |}.

Definition match_info_loser_of (match_info : MatchInfo) (winner_id : Z)
    : MatchInfo :=
  {| mi_opponent_id := winner_id;
     mi_tournament := mi_tournament match_info;
     mi_year := mi_year match_info;
     mi_surface := mi_surface match_info;
     mi_round := mi_round match_info;
     mi_score := mi_score match_info;
     mi_result := "L" |}.

Definition h2h_step
    (st : gmap Z (gset Z) * gmap Z (list MatchInfo)) (m : MatchRow)
    : gmap Z (gset Z) * gmap Z (list MatchInfo) :=
  match m_winner_id m, m_loser_id m with
  | Some winner_id, Some loser_id =>
      let h2h_connections := dd_add st.1 winner_id loser_id in
      let h2h_connections := dd_add h2h_connections loser_id winner_id in
      let match_info := match_info_of m loser_id in
      let match_details := dd_append st.2 winner_id match_info in
      let match_info_loser := match_info_loser_of match_info winner_id in
      let match_details := dd_append match_details loser_id match_info_loser in
      (h2h_connections, match_details)
  | _, _ => st
  end.

Definition extract_head_to_head_connections (matches_df : list MatchRow)
    (players_data : list (Z * PlayerData))
    : gmap Z (gset Z) * gmap Z (list MatchInfo) :=
  foldl h2h_step (∅, ∅) matches_df.

(** ** Attribute-Group extractor *)

(** The four group dictionaries filled by one pass over the valid players. *)
Record Groups := {
  country_groups : gmap PyVal (list Z);
  hand_groups : gmap PyVal (list Z);
  height_groups : gmap Z (list Z);
  year_groups : gmap PyVal (list Z)
}.

(** [isinstance(data, dict) and 'name' in data]: the key is there,
    whatever it holds. *)
Definition has_name (data : PlayerData) : Prop := is_Some (p_name data).

(** [int(height // 5) * 5]. Python raises ValueError for NaN and TypeError
    for a string or [None]. *)
Definition height_range (height : PyVal) : option Z :=
  match height with
  | VInt z => Some (z `div` 5 * 5)
  | _ => None
  end.

(** The key under which a player enters each grouping, when it enters: the
    true value of the field itself for country, hand and birth year, the
    range of a true height. *)
Definition country_key (data : PlayerData) : option PyVal :=
  get_truthy (p_country data).
Definition hand_key (data : PlayerData) : option PyVal :=
  get_truthy (p_hand data).
Definition height_key (data : PlayerData) : option Z :=
  get_truthy (p_height data) ≫= height_range.
Definition year_key (data : PlayerData) : option PyVal :=
  get_truthy (p_birth_year data).

Definition group_add `{Countable K} (g : gmap K (list Z)) (key : option K)
    (player_id : Z) : gmap K (list Z) :=
  match key with
  | Some k => dd_append g k player_id
  | None => g
  end.

(** The body of the loop "Group players by attributes"; it raises when a
    true height has no range. *)
Definition groups_step (g : Groups) (item : Z * PlayerData) : option Groups :=
  let '(player_id, data) := item in
  let country_groups :=
    group_add (country_groups g) (country_key data) player_id in
  let hand_groups := group_add (hand_groups g) (hand_key data) player_id in
  height_groups ←
    match get_truthy (p_height data) with
    | Some height =>
        range ← height_range height;
        Some (dd_append (height_groups g) range player_id)
    | None => Some (height_groups g)
    end;
  let year_groups := group_add (year_groups g) (year_key data) player_id in
  Some {| country_groups := country_groups;
          hand_groups := hand_groups;
          height_groups := height_groups;
          year_groups := year_groups |}.

(** [others = [p for p in players if p != player]]. *)
Definition others (players : list Z) (player : Z) : list Z :=
  filter (λ p, p ≠ player) players.

(** One of the four loops "Build connections within groups". *)
Definition connect_group (kind : string)
    (attribute_connections : gmap Z (gmap string (list Z)))
    (players : list Z) : gmap Z (gmap string (list Z)) :=
  if bool_decide (1 < length players)%nat then
    foldl (λ ac player, dd_set2 ac player kind (others players player))
          attribute_connections players
  else attribute_connections.

Definition connect_groups `{Countable K} (kind : string)
    (groups : gmap K (list Z))
    (attribute_connections : gmap Z (gmap string (list Z)))
    : gmap Z (gmap string (list Z)) :=
  foldl (λ ac item, connect_group kind ac item.2)
        attribute_connections (map_to_list groups).

Definition extract_attribute_connections
    (players_data : list (Z * PlayerData))
    : option (gmap Z (gmap string (list Z))) :=
  let valid_players := filter (λ item, has_name item.2) players_data in
  g ← foldl_raise groups_step
        {| country_groups := ∅; hand_groups := ∅;
           height_groups := ∅; year_groups := ∅ |} valid_players;
  let attribute_connections := ∅ in
  let attribute_connections :=
    connect_groups "same_country" (country_groups g) attribute_connections in
  let attribute_connections :=
    connect_groups "same_hand" (hand_groups g) attribute_connections in
  let attribute_connections :=
    connect_groups "similar_height" (height_groups g) attribute_connections in
  let attribute_connections :=
    connect_groups "same_birth_year" (year_groups g) attribute_connections in
  Some attribute_connections.

(** ** Tournament-Co-Participation extractor *)

Definition tournament_players_step (tournament_players : gmap string (gset Z))
    (m : MatchRow) : gmap string (gset Z) :=
  let tournament := m_tourney_name m in
  let year := m_year m in
  if truthy_cell tournament && truthy_int year then
    let tournament_key := cell_str tournament +:+ "_" +:+ pretty year in
    let tournament_players :=
      match m_winner_id m with
      | Some winner_id => dd_add tournament_players tournament_key winner_id
      | None => tournament_players
      end in
    match m_loser_id m with
    | Some loser_id => dd_add tournament_players tournament_key loser_id
    | None => tournament_players
    end
  else tournament_players.

Definition connect_pair (tournament_connections : gmap Z (gmap string (gset Z)))
    (player1 player2 : Z) : gmap Z (gmap string (gset Z)) :=
  dd_add2 (dd_add2 tournament_connections player1 "same_tournament" player2)
          player2 "same_tournament" player1.

Definition connect_tournaments (tournament_players : gmap string (gset Z))
    (tournament_connections : gmap Z (gmap string (gset Z)))
    : gmap Z (gmap string (gset Z)) :=
  foldl (λ tc item, for_pairs connect_pair (elements item.2) tc)
        tournament_connections (map_to_list tournament_players).

Definition gs_finalists_step (gs_finalists : gmap string (gset string))
    (final : FinalRecord) : gmap string (gset string) :=
  let tournament := f_tournament final in
  if truthy_str tournament then
    let winner_name := f_winner_name final in
    let loser_name := f_loser_name final in
    if truthy_str winner_name && truthy_str loser_name then
      dd_add (dd_add gs_finalists tournament winner_name) tournament loser_name
    else gs_finalists
  else gs_finalists.

(** The loop over the finalists of each Grand Slam; its body is [pass]. *)
Definition connect_finalists (gs_finalists : gmap string (gset string))
    (tournament_connections : gmap Z (gmap string (gset Z)))
    : gmap Z (gmap string (gset Z)) :=
  foldl (λ tc item, for_pairs (λ tc _ _, tc) (elements item.2) tc)
        tournament_connections (map_to_list gs_finalists).

Definition extract_tournament_connections (matches_df : list MatchRow)
    (gs_finals : list FinalRecord) : gmap Z (gmap string (list Z)) :=
  let tournament_players := foldl tournament_players_step ∅ matches_df in
  let tournament_connections := connect_tournaments tournament_players ∅ in
  let gs_finalists := foldl gs_finalists_step ∅ gs_finals in
  let tournament_connections :=
    connect_finalists gs_finalists tournament_connections in
  fmap (M := gmap Z) (fmap (M := gmap string) elements) tournament_connections.

(** ** Popular players *)

(** [list.sort(key=..., reverse=True)]: the stable sort by decreasing key.
    A list has one stable sorting ([stable_sort_unique] below), so any
    stable sort stands for Python's. *)
Fixpoint insert_desc {A} (key : A → nat) (x : A) (l : list A) : list A :=
  match l with
  | [] => [x]
  | y :: l' =>
      if bool_decide (key x < key y)%nat then y :: insert_desc key x l'
      else x :: y :: l'
  end.

Definition sort_desc {A} (key : A → nat) (l : list A) : list A :=
  foldr (insert_desc key) [] l.

(** The test and the [player_info] of one item of [players_data];
    [data.get(key, default)] gives the default for an absent key only. *)
Definition player_info (h2h_connections : gmap Z (gset Z))
    (min_connections : Z) (item : Z * PlayerData) : option PlayerInfo :=
  let '(player_id, data) := item in
  match p_name data, h2h_connections !! player_id with
  | Some name, Some opponents =>
      if bool_decide (min_connections ≤ Z.of_nat (size opponents)) then
        Some {| pi_id := player_id;
                pi_name := name;
                pi_country := default (VStr "") (p_country data);
                pi_hand := default (VStr "") (p_hand data);
                pi_height := default VNone (p_height data);
                pi_birth_year := default VNone (p_birth_year data);
                pi_titles := default (VInt 0) (p_titles data);
                pi_connections := size opponents |}
      else None
  | _, _ => None
  end.

Definition get_popular_players (players_data : list (Z * PlayerData))
    (h2h_connections : gmap Z (gset Z)) (min_connections : Z)
    : list PlayerInfo :=
  let popular_players := omap (player_info h2h_connections min_connections)
                              players_data in
  sort_desc pi_connections popular_players.

(** ** Graph merger *)

Definition connections_of (h2h_connections : gmap Z (gset Z))
    (attribute_connections tournament_connections : gmap Z (gmap string (list Z)))
    (player_id : Z) : Connections :=
  let direct := elements (default ∅ (h2h_connections !! player_id)) in
  let country := get2 attribute_connections player_id "same_country" in
  let hand := get2 attribute_connections player_id "same_hand" in
  let height := get2 attribute_connections player_id "similar_height" in
  let birth := get2 attribute_connections player_id "same_birth_year" in
  let tournament := get2 tournament_connections player_id "same_tournament" in
  let all_connections : gset Z :=
    foldl (λ all connected_players, all ∪ list_to_set connected_players) ∅
          [direct; country; hand; height; birth; tournament] in
  {| direct_opponents := direct;
     same_country := country;
     same_hand := hand;
     similar_height := height;
     same_birth_year := birth;
     same_tournament := tournament;
     total_connections := size all_connections |}.

Definition build_connection_graph (h2h_connections : gmap Z (gset Z))
    (attribute_connections tournament_connections : gmap Z (gmap string (list Z)))
    : gmap Z Connections :=
  let all_player_ids : gset Z :=
    dom h2h_connections ∪ dom attribute_connections
      ∪ dom tournament_connections in
  foldl (λ connection_graph player_id,
           <[player_id :=
               connections_of h2h_connections attribute_connections
                              tournament_connections player_id]>
             connection_graph)
        ∅ (elements all_player_ids).

(** ** The pipeline *)

Definition connection_types : list string :=
  ["direct_opponents"; "same_country"; "same_hand"; "similar_height";
   "same_birth_year"; "same_tournament"].

(** The loop "Filter connections to only include top players". *)
Definition filter_connections (connection_graph : gmap Z Connections)
    (top_player_ids : list Z) : gmap string Connections :=
  foldl (λ filtered_connections player_id,
           match connection_graph !! player_id with
           | Some c => <[pretty player_id := c]> filtered_connections
           | None => filtered_connections
           end) ∅ top_player_ids.

(** The loop "Filter player details and match details for top players
    only"; [details[:50]] is [take 50 details]. *)
Definition filter_details_step (players_data : list (Z * PlayerData))
    (match_details : gmap Z (list MatchInfo))
    (st : gmap string PlayerData * gmap string (list MatchInfo))
    (player_id : Z) : gmap string PlayerData * gmap string (list MatchInfo) :=
  let filtered_player_details :=
    match pd_get players_data player_id with
    | Some data => <[pretty player_id := data]> st.1
    | None => st.1
    end in
  let filtered_match_details :=
    match match_details !! player_id with
    | Some details => <[pretty player_id := take 50 details]> st.2
    | None => st.2
    end in
  (filtered_player_details, filtered_match_details).

Definition filter_details (players_data : list (Z * PlayerData))
    (match_details : gmap Z (list MatchInfo)) (top_player_ids : list Z)
    : gmap string PlayerData * gmap string (list MatchInfo) :=
  foldl (filter_details_step players_data match_details) (∅, ∅) top_player_ids.

(** The ways [main] ends: it returns before the document is written, an
    exception ends it before the document is written, or it writes the
    document. *)
Inductive Exit :=
  | Aborted
  | Raised
  | Written (doc : Document).

(** [main] after the three loaders. The clock read by [datetime.now()] is
    the pair [now_year], [now_iso]. *)
Definition main (now_year : Z) (now_iso : string)
    (matches_df : list MatchRow) (players_data : list (Z * PlayerData))
    (gs_finals : list FinalRecord) : Exit :=
  if bool_decide (matches_df = []) then Aborted
  else
    let '(h2h_connections, match_details) :=
      extract_head_to_head_connections matches_df players_data in
    match extract_attribute_connections players_data with
    | None => Raised
    | Some attribute_connections =>
    let tournament_connections :=
      extract_tournament_connections matches_df gs_finals in
    let connection_graph :=
      build_connection_graph h2h_connections attribute_connections
                             tournament_connections in
    let popular_players := get_popular_players players_data h2h_connections 8 in
    let top_players := take 800 popular_players in
    let top_player_ids : gset Z := list_to_set (pi_id <$> top_players) in
    let filtered_connections :=
      filter_connections connection_graph (elements top_player_ids) in
    let '(filtered_player_details, filtered_match_details) :=
      filter_details players_data match_details (elements top_player_ids) in
    Written {| doc_players := top_players;
               doc_connections := filtered_connections;
               doc_player_details := filtered_player_details;
               doc_match_details := filtered_match_details;
               doc_metadata :=
                 {| md_total_players := length top_players;
                    md_total_matches := length matches_df;
                    md_data_range := "1990-" +:+ pretty now_year;
                    md_generated_on := now_iso;
                    md_connection_types := connection_types |} |}
    end.

(** ** Vocabulary of the statements *)

(** The six relation kinds and the list a [connections] dictionary keeps
    for each. *)
Inductive RelationKind :=
  | DirectOpponents | SameCountry | SameHand
  | SimilarHeight | SameBirthYear | SameTournament.

Definition neighbours (K : RelationKind) (c : Connections) : list Z :=
  match K with
  | DirectOpponents => direct_opponents c
  | SameCountry => same_country c
  | SameHand => same_hand c
  | SimilarHeight => similar_height c
  | SameBirthYear => same_birth_year c
  | SameTournament => same_tournament c
  end.

(** The merged (pre-truncation) graph that [main] builds, when the
    attribute extractor does not raise. *)
Definition merged_graph (matches_df : list MatchRow)
    (players_data : list (Z * PlayerData)) (gs_finals : list FinalRecord)
    : option (gmap Z Connections) :=
  attribute_connections ← extract_attribute_connections players_data;
  Some (build_connection_graph
          (extract_head_to_head_connections matches_df players_data).1
          attribute_connections
          (extract_tournament_connections matches_df gs_finals)).

(** [v] is a vertex of [g] and lists [u] under kind [K]. *)
Definition lists (g : gmap Z Connections) (K : RelationKind) (v u : Z) : Prop :=
  ∃ c, g !! v = Some c ∧ u ∈ neighbours K c.

(** [h2h_connections.get(u, set())]. *)
Definition opponents (h2h_connections : gmap Z (gset Z)) (u : Z) : gset Z :=
  default ∅ (h2h_connections !! u).

(** [u] is a key of [players_data] whose value has a name. *)
Definition named (players_data : list (Z * PlayerData)) (u : Z) : Prop :=
  ∃ data, (u, data) ∈ players_data ∧ has_name data.

(** [u] is the winner or the loser of the row. *)
Definition appears_in (m : MatchRow) (u : Z) : Prop :=
  m_winner_id m = Some u ∨ m_loser_id m = Some u.

(** The ids of the candidates kept in the document. *)
Definition retained (doc : Document) : list Z := pi_id <$> doc_players doc.

(** The last [n] entries of a list kept oldest first. *)
Definition most_recent {A} (n : nat) (l : list A) : list A :=
  drop (length l - n) l.

(** Decreasing order of a key. *)
Definition ge_key {A} (key : A → nat) : relation A :=
  λ a b, (key b ≤ key a)%nat.

(** Two players enter the same group of a grouping. *)
Definition same_group {K} (key : PlayerData → option K)
    (du dv : PlayerData) : Prop :=
  ∃ k, key du = Some k ∧ key dv = Some k.

(** The tournament neighbours of [u] before the sets are made lists. *)
Definition tournament_set (tc : gmap Z (gmap string (gset Z))) (u : Z) : gset Z :=
  default ∅ (default ∅ (tc !! u) !! "same_tournament").

(** The entries a row appends to the match details of [v]. *)
Definition row_details (v : Z) (m : MatchRow) : list MatchInfo :=
  match m_winner_id m, m_loser_id m with
  | Some winner_id, Some loser_id =>
      (if decide (winner_id = v) then [match_info_of m loser_id] else [])
      ++ (if decide (loser_id = v)
          then [match_info_loser_of (match_info_of m loser_id) winner_id]
          else [])
  | _, _ => []
  end.

(** Every true height of a named player is a number, so that the
    attribute extractor finds a range for it. *)
Definition heights_numeric (players_data : list (Z * PlayerData)) : Prop :=
  ∀ p d h, (p, d) ∈ players_data → has_name d →
           get_truthy (p_height d) = Some h → ∃ z, h = VInt z.

(** [u] and [v] are two named players of [players_data] related by
    [share]. *)
Definition grouped (share : PlayerData → PlayerData → Prop)
    (players_data : list (Z * PlayerData)) (u v : Z) : Prop :=
  u ≠ v ∧ ∃ du dv, (u, du) ∈ players_data ∧ (v, dv) ∈ players_data
                   ∧ has_name du ∧ has_name dv ∧ share du dv.

(** A row is a match of a player against himself. *)
Definition self_match (m : MatchRow) (u : Z) : Prop :=
  m_winner_id m = Some u ∧ m_loser_id m = Some u.

(** One group dictionary of the attribute extractor, taken alone. *)
Definition groups_of `{Countable K} (key : PlayerData → option K)
    (players_data : list (Z * PlayerData)) : gmap K (list Z) :=
  foldl (λ g item, group_add g (key item.2) item.1) ∅
        (filter (λ item, has_name item.2) players_data).

(** ** Vocabulary of the further properties *)

(** The row is a match between [u] and [v], both ids recorded. *)
Definition met (m : MatchRow) (u v : Z) : Prop :=
  (m_winner_id m = Some u ∧ m_loser_id m = Some v)
  ∨ (m_winner_id m = Some v ∧ m_loser_id m = Some u).

(** The [tournament_key] of a row, when its tournament and year are true. *)
Definition tournament_key_of (m : MatchRow) : option string :=
  if truthy_cell (m_tourney_name m) && truthy_int (m_year m)
  then Some (cell_str (m_tourney_name m) +:+ "_" +:+ pretty (m_year m))
  else None.

(** [u] is the winner or the loser of a row of tournament [k]. *)
Definition plays_in (m : MatchRow) (k : string) (u : Z) : Prop :=
  tournament_key_of m = Some k ∧ appears_in m u.

(** Two distinct players appear in rows of one tournament. *)
Definition co_participants (matches_df : list MatchRow) (u v : Z) : Prop :=
  u ≠ v ∧ ∃ k m1 m2, m1 ∈ matches_df ∧ m2 ∈ matches_df
                     ∧ plays_in m1 k u ∧ plays_in m2 k v.



(** The match details of [v] in a result of the head-to-head extractor. *)
Definition details_of (match_details : gmap Z (list MatchInfo)) (v : Z)
    : list MatchInfo :=
  default [] (match_details !! v).

(** ** Sample inputs *)

Definition row (winner_id loser_id : option Z) (tourney_name : string)
    (year : Z) : MatchRow :=
  {| m_winner_id := winner_id; m_loser_id := loser_id;
     m_tourney_name := Some tourney_name; m_year := year;
     m_surface := Some "Hard"; m_round := Some "R32"; m_score := Some "6-4 6-4" |}.

Definition player (name country hand : string) (height birth_year : Z)
    : PlayerData :=
  {| p_name := Some (VStr name); p_country := Some (VStr country);
     p_hand := Some (VStr hand); p_height := Some (VInt height);
     p_birth_year := Some (VInt birth_year); p_titles := None |}.

(** Four players: three French, one Spanish, one of them left-handed and
    one without a recorded height. *)
Definition sample_players : list (Z * PlayerData) :=
  [(1, player "A" "FRA" "R" 185 1985);
   (2, player "B" "FRA" "R" 188 1986);
   (3, player "C" "ESP" "L" 183 1985);
   (4, {| p_name := Some (VStr "D"); p_country := Some (VStr "FRA");
          p_hand := Some (VStr "R"); p_height := None;
          p_birth_year := Some (VInt 1990); p_titles := Some (VInt 2) |})].

(** A beats B, B beats A, A beats C. *)
Definition sample_matches : list MatchRow :=
  [row (Some 1) (Some 2) "Wimbledon" 2010;
   row (Some 2) (Some 1) "Wimbledon" 2011;
   row (Some 1) (Some 3) "US Open" 2012].

(** Player 1 beats players 2, ..., n+1 at one tournament. *)
Definition star_matches (n : Z) : list MatchRow :=
  (λ i, row (Some 1) (Some i) "Paris" 2000) <$> seqZ 2 n.

(** A row whose winner id is missing. *)
Definition half_row : MatchRow := row None (Some 5) "Wimbledon" 2010.

(** A row whose winner is its loser. *)
Definition self_row : MatchRow := row (Some 7) (Some 7) "Wimbledon" 2010.

(** A player as the loader leaves it for a row of the players file with an
    empty country and an empty hand: both hold NaN. *)
Definition stateless (name : string) : PlayerData :=
  {| p_name := Some (VStr name); p_country := Some VNaN; p_hand := Some VNaN;
     p_height := None; p_birth_year := None; p_titles := None |}.

Definition stateless_players : list (Z * PlayerData) :=
  [(1, stateless "A"); (2, stateless "B")].

(** A player whose height holds NaN. *)
Definition nan_height_players : list (Z * PlayerData) :=
  [(1, {| p_name := Some (VStr "A"); p_country := Some (VStr "FRA");
          p_hand := Some (VStr "R"); p_height := Some VNaN;
          p_birth_year := None; p_titles := None |})].

(** A ranked player whose name, country and titles hold [None]. *)
Definition null_fields_players : list (Z * PlayerData) :=
  [(1, {| p_name := Some VNone; p_country := Some VNone;
          p_hand := None; p_height := None;
          p_birth_year := None; p_titles := Some VNone |})].

(** * Properties *)

(** ** Loops *)

Lemma foldl_invariant {A B} (P : A → Prop) (f : A → B → A) (l : list B) (a : A) :
  P a → (∀ a x, x ∈ l → P a → P (f a x)) → P (foldl f a l).
Proof.
  revert a. induction l as [|x l IH]; intros a Ha Hstep; simpl; [done|].
  apply IH.
  - apply Hstep; [by left | done].
  - intros a' y Hy. apply Hstep. by right.
Qed.

Lemma for_pairs_invariant {A S} (P : S → Prop) (body : S → A → A → S)
    (l : list A) (st : S) :
  NoDup l → P st →
  (∀ st a b, a ∈ l → b ∈ l → a ≠ b → P st → P (body st a b)) →
  P (for_pairs body l st).
Proof.
  intros Hnd. revert st.
  induction Hnd as [|x l Hx Hnd IH]; intros st Hst Hstep; simpl; [done|].
  apply IH.
  - apply foldl_invariant; [done|]. intros st' y Hy Hst'.
    apply Hstep; [by left | by right | | done]. by intros ->.
  - intros st' a b Ha Hb. apply Hstep; by right.
Qed.

(** ** Defaultdict updates *)

Section dd.
Context `{Countable K} `{Countable V}.

Lemma dd_add_lookup (d : gmap K (gset V)) k v k' :
  default ∅ (dd_add d k v !! k')
  = if decide (k = k') then default ∅ (d !! k) ∪ {[v]} else default ∅ (d !! k').
Proof.
  unfold dd_add. case_decide as Hk.
  - subst. by rewrite lookup_insert_eq.
  - by rewrite lookup_insert_ne.
Qed.

Lemma dd_add_dom (d : gmap K (gset V)) k v : dom (dd_add d k v) = {[k]} ∪ dom d.
Proof. unfold dd_add. by rewrite dom_insert_L. Qed.
End dd.

Lemma opponents_dd_add h k v u :
  opponents (dd_add h k v) u
  = if decide (k = u) then opponents h k ∪ {[v]} else opponents h u.
Proof. apply dd_add_lookup. Qed.

(** ** Head-to-Head extractor *)

Lemma h2h_step_skip st m :
  m_winner_id m = None ∨ m_loser_id m = None → h2h_step st m = st.
Proof.
  unfold h2h_step. intros [-> | ->]; [done|]. by destruct (m_winner_id m).
Qed.

Lemma h2h_opponents_symmetric matches pd u v :
  v ∈ opponents (extract_head_to_head_connections matches pd).1 u →
  u ∈ opponents (extract_head_to_head_connections matches pd).1 v.
Proof.
  unfold extract_head_to_head_connections. revert u v.
  apply (foldl_invariant (λ st, ∀ u v, v ∈ opponents st.1 u → u ∈ opponents st.1 v)).
  - intros u v. unfold opponents. simpl. rewrite lookup_empty. set_solver.
  - intros st m _ IH u v. unfold h2h_step.
    destruct (m_winner_id m) as [w|]; [|by apply IH].
    destruct (m_loser_id m) as [l|]; [|by apply IH].
    simpl. rewrite !opponents_dd_add.
    repeat destruct (decide _) as [?|?]; subst;
      rewrite ?elem_of_union, ?elem_of_singleton;
      intuition (subst; first [congruence | auto]).
Qed.

Lemma h2h_dom_appears matches pd u :
  u ∈ dom (extract_head_to_head_connections matches pd).1 →
  ∃ m, m ∈ matches ∧ appears_in m u.
Proof.
  unfold extract_head_to_head_connections. revert u.
  apply (foldl_invariant (λ st, ∀ u, u ∈ dom st.1 → ∃ m, m ∈ matches ∧ appears_in m u)).
  - intros u. simpl. set_solver.
  - intros st m Hm IH u. unfold h2h_step.
    destruct (m_winner_id m) as [w|] eqn:Hw; [|by apply IH].
    destruct (m_loser_id m) as [l|] eqn:Hl; [|by apply IH].
    simpl. rewrite !dd_add_dom. intros Hu.
    apply elem_of_union in Hu as [Hu|Hu];
      [|apply elem_of_union in Hu as [Hu|Hu]; [|by apply IH]].
    + apply elem_of_singleton in Hu as ->. exists m. split; [done|]. by right.
    + apply elem_of_singleton in Hu as ->. exists m. split; [done|]. by left.
Qed.

Lemma opponents_elem_dom h u v : v ∈ opponents h u → u ∈ dom h.
Proof.
  unfold opponents. intros Hv. apply elem_of_dom.
  destruct (h !! u); [done | set_solver].
Qed.

(** ** Stable sort by decreasing key *)

Section sort_desc.
Context {A : Type} (key : A → nat).
Implicit Types (x y : A) (l : list A).

Lemma insert_desc_perm x l : insert_desc key x l ≡ₚ x :: l.
Proof.
  induction l as [|y l IH]; simpl; [done|].
  case_bool_decide; [|done]. rewrite IH. apply Permutation_swap.
Qed.

Lemma sort_desc_perm l : sort_desc key l ≡ₚ l.
Proof.
  induction l as [|x l IH]; simpl; [done|].
  by rewrite insert_desc_perm, IH.
Qed.

Lemma insert_desc_sorted x l :
  StronglySorted (ge_key key) l → StronglySorted (ge_key key) (insert_desc key x l).
Proof.
  induction 1 as [|y l Hl IH Hy]; simpl.
  - repeat constructor.
  - case_bool_decide as Hlt.
    + constructor; [done|].
      eapply Forall_forall. intros z Hz.
      apply (elem_of_Permutation_proper _ _ _ (insert_desc_perm x l)) in Hz.
      apply elem_of_cons in Hz as [->|Hz].
      * unfold ge_key. lia.
      * eapply Forall_forall in Hy; [exact Hy | done].
    + constructor; [by constructor|].
      constructor; [unfold ge_key; lia|].
      eapply Forall_impl; [exact Hy|]. unfold ge_key. intros; simpl in *; lia.
Qed.

Lemma sort_desc_sorted l : StronglySorted (ge_key key) (sort_desc key l).
Proof.
  induction l as [|x l IH]; simpl; [constructor|].
  by apply insert_desc_sorted.
Qed.

Lemma insert_desc_stable n x l :
  filter (λ a, key a = n) (insert_desc key x l)
  = filter (λ a, key a = n) (x :: l).
Proof.
  induction l as [|y l IH]; simpl; [done|].
  case_bool_decide as Hlt; [|done].
  rewrite (filter_cons _ y), IH, !(filter_cons _ x), !(filter_cons _ y).
  repeat case_decide; try done; lia.
Qed.

Lemma sort_desc_stable n l :
  filter (λ a, key a = n) (sort_desc key l) = filter (λ a, key a = n) l.
Proof.
  induction l as [|x l IH]; simpl; [done|].
  rewrite insert_desc_stable, !filter_cons, IH. done.
Qed.

(** A list has at most one stable sorting. *)
Lemma stable_sort_unique l1 l2 :
  StronglySorted (ge_key key) l1 → StronglySorted (ge_key key) l2 →
  (∀ n, filter (λ a, key a = n) l1 = filter (λ a, key a = n) l2) →
  l1 = l2.
Proof.
  intros Hs1. revert l2.
  induction Hs1 as [|x l1 Hs1 IH Hx]; intros l2 Hs2 Hf.
  - destruct l2 as [|y l2]; [done|].
    specialize (Hf (key y)). rewrite filter_cons_True in Hf by done. done.
  - destruct Hs2 as [|y l2 Hs2 Hy].
    { specialize (Hf (key x)). rewrite filter_cons_True in Hf by done. done. }
    assert (key x = key y) as Hk.
    { apply Nat.le_antisymm.
      - assert (x ∈ filter (λ a, key a = key x) (y :: l2)) as Hin.
        { rewrite <- Hf, filter_cons_True by done. by left. }
        apply list_elem_of_filter in Hin as [_ Hin].
        apply elem_of_cons in Hin as [->|Hin]; [done|].
        eapply Forall_forall in Hy; [exact Hy | done].
      - assert (y ∈ filter (λ a, key a = key y) (x :: l1)) as Hin.
        { rewrite Hf, filter_cons_True by done. by left. }
        apply list_elem_of_filter in Hin as [_ Hin].
        apply elem_of_cons in Hin as [->|Hin]; [done|].
        eapply Forall_forall in Hx; [exact Hx | done]. }
    assert (x = y) as ->.
    { specialize (Hf (key x)). rewrite !filter_cons_True in Hf by done.
      by injection Hf. }
    f_equal. apply IH; [done|]. intros n. specialize (Hf n).
    rewrite !filter_cons in Hf. case_decide; [by injection Hf | done].
Qed.
End sort_desc.

(** ** Graph merger *)

Lemma foldl_insert_lookup `{Countable K} {A} (f : K → A) (l : list K)
    (m0 : gmap K A) (q : K) :
  foldl (λ m p, <[p := f p]> m) m0 l !! q
  = if decide (q ∈ l) then Some (f q) else m0 !! q.
Proof.
  revert m0. induction l as [|p l IH]; intros m0; simpl.
  - destruct (decide (q ∈ [])) as [Hq|Hq]; [by apply elem_of_nil in Hq | done].
  - rewrite IH. destruct (decide (q ∈ l)) as [Hl|Hl].
    + rewrite decide_True; [done | by right].
    + destruct (decide (p = q)) as [->|Hne].
      * rewrite lookup_insert_eq. rewrite decide_True; [done | by left].
      * rewrite lookup_insert_ne by done.
        rewrite decide_False; [done |]. intros Hin.
        apply elem_of_cons in Hin as [?|?]; congruence.
Qed.

Lemma length_remove_dups_le `{EqDecision A} (l : list A) :
  (length (remove_dups l) ≤ length l)%nat.
Proof. induction l as [|x l IH]; simpl; [done|]. case_decide; simpl; lia. Qed.

Lemma build_connection_graph_lookup h2h attr tour v :
  build_connection_graph h2h attr tour !! v
  = if decide (v ∈ dom h2h ∪ dom attr ∪ dom tour)
    then Some (connections_of h2h attr tour v) else None.
Proof.
  unfold build_connection_graph. rewrite foldl_insert_lookup.
  destruct (decide (v ∈ elements _)) as [Hv|Hv];
    rewrite elem_of_elements in Hv.
  - by rewrite decide_True.
  - by rewrite decide_False.
Qed.


(** ** The document assembled by [main] *)

Lemma main_Aborted now_year now_iso matches pd gs :
  main now_year now_iso matches pd gs = Aborted ↔ matches = [].
Proof.
  unfold main. case_bool_decide as Hm; [done|].
  destruct (extract_head_to_head_connections matches pd) as [h2h md].
  destruct (extract_attribute_connections pd); [|done].
  destruct (filter_details _ _ _) as [fpd fmd]. done.
Qed.

Lemma main_Raised now_year now_iso matches pd gs :
  main now_year now_iso matches pd gs = Raised
  ↔ matches ≠ [] ∧ extract_attribute_connections pd = None.
Proof.
  unfold main. case_bool_decide as Hm; [by split; [|intros [? _]]|].
  destruct (extract_head_to_head_connections matches pd) as [h2h md].
  destruct (extract_attribute_connections pd); [|done].
  destruct (filter_details _ _ _) as [fpd fmd]. by split; [|intros [_ ?]].
Qed.

Lemma main_writes now_year now_iso matches pd gs :
  matches ≠ [] → is_Some (extract_attribute_connections pd) →
  ∃ doc, main now_year now_iso matches pd gs = Written doc.
Proof.
  intros Hm [attr Hattr]. unfold main.
  rewrite bool_decide_eq_false_2 by done.
  destruct (extract_head_to_head_connections matches pd) as [h2h md].
  rewrite Hattr. destruct (filter_details _ _ _) as [fpd fmd]. by eexists.
Qed.

Lemma main_Written now_year now_iso matches pd gs doc :
  main now_year now_iso matches pd gs = Written doc →
  let top_player_ids := elements (list_to_set (retained doc) : gset Z) in
  matches ≠ []
  ∧ doc_players doc
    = take 800 (get_popular_players pd
                  (extract_head_to_head_connections matches pd).1 8)
  ∧ (∃ g, merged_graph matches pd gs = Some g
          ∧ doc_connections doc = filter_connections g top_player_ids)
  ∧ doc_player_details doc
    = (filter_details pd (extract_head_to_head_connections matches pd).2
                      top_player_ids).1
  ∧ doc_match_details doc
    = (filter_details pd (extract_head_to_head_connections matches pd).2
                      top_player_ids).2.
Proof.
  unfold main, merged_graph, retained. case_bool_decide as Hm; [done|].
  destruct (extract_head_to_head_connections matches pd) as [h2h md] eqn:Hh.
  destruct (extract_attribute_connections pd) as [attr|]; [|done].
  destruct (filter_details _ _ _) as [fpd fmd] eqn:Hf.
  intros [= <-]. cbn [doc_players doc_connections doc_player_details
                      doc_match_details fst snd].
  rewrite Hf. split_and!; try done. by eexists.
Qed.

Lemma elem_of_top_player_ids (ids : list Z) v :
  v ∈ elements (list_to_set ids : gset Z) ↔ v ∈ ids.
Proof. by rewrite elem_of_elements, elem_of_list_to_set. Qed.

Lemma foldl_insert_pretty_lookup {A B} (f : Z → option B) (g : B → A)
    (ids : list Z) (m0 : gmap string A) v :
  foldl (λ m p, match f p with
                | Some c => <[pretty p := g c]> m
                | None => m
                end) m0 ids !! pretty v
  = if decide (v ∈ ids) then
      match f v with Some c => Some (g c) | None => m0 !! pretty v end
    else m0 !! pretty v.
Proof.
  revert m0. induction ids as [|p ids IH]; intros m0; cbn [foldl].
  - by rewrite decide_False by apply not_elem_of_nil.
  - rewrite IH. destruct (decide (p = v)) as [->|Hne].
    + rewrite (decide_True (P := v ∈ v :: ids)) by by left.
      destruct (f v) as [c|]; [|by destruct (decide _)].
      rewrite lookup_insert_eq. by destruct (decide _).
    + assert (∀ m : gmap string A,
        match f p with Some c => <[pretty p := g c]> m | None => m end
          !! pretty v = m !! pretty v) as ->.
      { intros m. destruct (f p); [|done].
        rewrite lookup_insert_ne; [done|]. by intros ?%(inj pretty). }
      destruct (decide (v ∈ ids)) as [Hin|Hin].
      * rewrite decide_True; [done | by right].
      * rewrite decide_False; [done|]. by intros [?|?]%elem_of_cons.
Qed.

Lemma foldl_insert_pretty_key {A B} (f : Z → option B) (g : B → A)
    (ids : list Z) (k : string) :
  is_Some (foldl (λ m p, match f p with
                         | Some c => <[pretty p := g c]> m
                         | None => m
                         end) (∅ : gmap string A) ids !! k) →
  ∃ v, v ∈ ids ∧ k = pretty v.
Proof.
  apply (foldl_invariant (λ m : gmap string A,
           is_Some (m !! k) → ∃ v, v ∈ ids ∧ k = pretty v)).
  - rewrite lookup_empty. by intros [? ?].
  - intros m p Hp IH. destruct (f p); [|done].
    destruct (decide (pretty p = k)) as [<-|Hne]; [by exists p|].
    by rewrite lookup_insert_ne.
Qed.

Lemma filter_connections_lookup g ids v :
  filter_connections g ids !! pretty v = if decide (v ∈ ids) then g !! v else None.
Proof.
  unfold filter_connections.
  rewrite (foldl_insert_pretty_lookup (λ p, g !! p) id), lookup_empty.
  destruct (decide _); [by destruct (g !! v) | done].
Qed.

Lemma filter_connections_key g ids k :
  is_Some (filter_connections g ids !! k) → ∃ v, v ∈ ids ∧ k = pretty v.
Proof. apply (foldl_insert_pretty_key (λ p, g !! p) id). Qed.

Lemma filter_details_split pd md ids st :
  foldl (filter_details_step pd md) st ids
  = (foldl (λ m p, match pd_get pd p with
                   | Some c => <[pretty p := id c]> m
                   | None => m
                   end) st.1 ids,
     foldl (λ m p, match md !! p with
                   | Some c => <[pretty p := take 50 c]> m
                   | None => m
                   end) st.2 ids).
Proof.
  revert st. induction ids as [|p ids IH]; intros [a b]; simpl; [done|].
  by rewrite IH.
Qed.

Lemma filter_match_details_lookup pd md ids v :
  (filter_details pd md ids).2 !! pretty v
  = if decide (v ∈ ids) then take 50 <$> md !! v else None.
Proof.
  unfold filter_details. rewrite filter_details_split. simpl.
  rewrite foldl_insert_pretty_lookup, lookup_empty.
  destruct (decide _); [by destruct (md !! v) | done].
Qed.

Lemma filter_match_details_key pd md ids k :
  is_Some ((filter_details pd md ids).2 !! k) → ∃ v, v ∈ ids ∧ k = pretty v.
Proof.
  unfold filter_details. rewrite filter_details_split. simpl.
  apply foldl_insert_pretty_key.
Qed.

(** ** Attribute-Group extractor *)

Lemma length_gt_1 {A} (l : list A) u v : u ∈ l → v ∈ l → u ≠ v → (1 < length l)%nat.
Proof.
  destruct l as [|a [|b l]]; simpl; [by intros ?%elem_of_nil | | lia].
  intros ->%list_elem_of_singleton ->%list_elem_of_singleton. done.
Qed.

Lemma elem_of_others players player p :
  p ∈ others players player ↔ p ≠ player ∧ p ∈ players.
Proof. unfold others. by rewrite list_elem_of_filter. Qed.

Lemma get2_empty {A} u kind : get2 (∅ : gmap Z (gmap string (list A))) u kind = [].
Proof. unfold get2. by rewrite lookup_empty. Qed.

Lemma get2_elem_dom {A} (d : gmap Z (gmap string (list A))) u kind x :
  x ∈ get2 d u kind → u ∈ dom d.
Proof.
  unfold get2. intros Hx. apply elem_of_dom. destruct (d !! u); [done|].
  simpl in Hx. rewrite lookup_empty in Hx. by apply elem_of_nil in Hx.
Qed.

Lemma get2_dd_set2 {A} (d : gmap Z (gmap string (list A))) p kind v u kind' :
  get2 (dd_set2 d p kind v) u kind'
  = if decide (p = u ∧ kind = kind') then v else get2 d u kind'.
Proof.
  unfold get2, dd_set2. destruct (decide (p = u)) as [->|Hp].
  - rewrite lookup_insert_eq. simpl. destruct (decide (kind = kind')) as [->|Hk].
    + rewrite lookup_insert_eq. by rewrite decide_True.
    + rewrite lookup_insert_ne by done. by rewrite decide_False by tauto.
  - rewrite lookup_insert_ne by done. by rewrite decide_False by tauto.
Qed.

Lemma dom_dd_set2 {A} (d : gmap Z (gmap string A)) p kind v :
  dom (dd_set2 d p kind v) = {[p]} ∪ dom d.
Proof. unfold dd_set2. by rewrite dom_insert_L. Qed.

Section groups.
Context `{Countable K} (key : PlayerData → option K).

(** The members of group [k], in the order the players are visited. *)
Lemma group_fold_lookup (items : list (Z * PlayerData)) (g0 : gmap K (list Z)) k :
  default [] (foldl (λ g item, group_add g (key item.2) item.1) g0 items !! k)
  = default [] (g0 !! k) ++ (filter (λ item, key item.2 = Some k) items).*1.
Proof.
  revert g0. induction items as [|[p d] items IH]; intros g0; cbn [foldl].
  - by rewrite filter_nil, app_nil_r.
  - rewrite IH, filter_cons. cbn [fst snd]. unfold group_add.
    destruct (key d) as [k'|] eqn:Hk; [|by rewrite decide_False].
    unfold dd_append. destruct (decide (k' = k)) as [->|Hne].
    + rewrite lookup_insert_eq, decide_True by done. simpl.
      by rewrite <- app_assoc.
    + rewrite lookup_insert_ne by done.
      rewrite decide_False; [done | congruence].
Qed.

Lemma group_members (items : list (Z * PlayerData)) k ps :
  foldl (λ g item, group_add g (key item.2) item.1) ∅ items !! k = Some ps →
  ps = (filter (λ item, key item.2 = Some k) items).*1.
Proof.
  intros Hps. pose proof (group_fold_lookup items ∅ k) as Hl.
  by rewrite Hps, lookup_empty in Hl.
Qed.

Lemma group_exists (items : list (Z * PlayerData)) p d k :
  (p, d) ∈ items → key d = Some k →
  ∃ ps, foldl (λ g item, group_add g (key item.2) item.1) ∅ items !! k = Some ps
        ∧ p ∈ ps.
Proof.
  intros Hin Hk. pose proof (group_fold_lookup items ∅ k) as Hl.
  rewrite lookup_empty in Hl. simpl in Hl.
  assert (p ∈ (filter (λ item, key item.2 = Some k) items).*1) as Hp.
  { apply list_elem_of_fmap. exists (p, d). split; [done|].
    by apply list_elem_of_filter. }
  rewrite <- Hl in Hp.
  destruct (foldl _ _ _ !! k) as [ps|]; [by exists ps|].
  by apply elem_of_nil in Hp.
Qed.

Lemma elem_of_group_members (items : list (Z * PlayerData)) k p :
  p ∈ (filter (λ item, key item.2 = Some k) items).*1
  ↔ ∃ d, (p, d) ∈ items ∧ key d = Some k.
Proof.
  rewrite list_elem_of_fmap. split.
  - intros [[p' d] [-> [Hk Hin]%list_elem_of_filter]]. by exists d.
  - intros [d [Hin Hk]]. exists (p, d). split; [done|].
    by apply list_elem_of_filter.
Qed.
End groups.

Lemma connect_group_get2 kind ac players u kind' :
  get2 (connect_group kind ac players) u kind'
  = if decide (kind = kind' ∧ u ∈ players ∧ (1 < length players)%nat)
    then others players u else get2 ac u kind'.
Proof.
  unfold connect_group. case_bool_decide as Hlen;
    [|by rewrite decide_False by tauto].
  assert (∀ ps ac0,
    get2 (foldl (λ ac player, dd_set2 ac player kind (others players player))
                ac0 ps) u kind'
    = if decide (kind = kind' ∧ u ∈ ps) then others players u
      else get2 ac0 u kind') as Hfold.
  { induction ps as [|p ps IH]; intros ac0; cbn [foldl].
    - rewrite decide_False; [done|]. by intros [_ ?%elem_of_nil].
    - rewrite IH, get2_dd_set2.
      destruct (decide (kind = kind' ∧ u ∈ ps)) as [[? ?]|Hn].
      + rewrite decide_True; [done|]. split; [done | by right].
      + destruct (decide (p = u ∧ kind = kind')) as [[-> ?]|Hn'].
        * rewrite decide_True; [done|]. split; [done | by left].
        * rewrite decide_False; [done|].
          intros [? [->|?]%elem_of_cons]; tauto. }
  rewrite Hfold. destruct (decide (kind = kind' ∧ u ∈ players)) as [[? ?]|Hn].
  - by rewrite decide_True.
  - rewrite decide_False; [done | tauto].
Qed.

Lemma connect_group_dom kind ac players u :
  u ∈ dom (connect_group kind ac players) → u ∈ dom ac ∨ u ∈ players.
Proof.
  unfold connect_group. case_bool_decide; [|by left].
  apply (foldl_invariant (λ ac', u ∈ dom ac' → u ∈ dom ac ∨ u ∈ players)).
  - by left.
  - intros ac' p Hp IH. rewrite dom_dd_set2.
    intros [->%elem_of_singleton|?]%elem_of_union; [by right | by apply IH].
Qed.

Section connect_groups.
Context `{Countable K} (kind : string) (groups : gmap K (list Z)).

Lemma connect_groups_invariant (P : gmap Z (gmap string (list Z)) → Prop) ac :
  P ac →
  (∀ ac' k ps, groups !! k = Some ps → P ac' → P (connect_group kind ac' ps)) →
  P (connect_groups kind groups ac).
Proof.
  intros Hac Hstep. unfold connect_groups.
  apply foldl_invariant; [done|]. intros ac' [k ps] Hin.
  apply (Hstep ac' k ps). by apply elem_of_map_to_list.
Qed.

Lemma connect_groups_other ac u kind' :
  kind ≠ kind' → get2 (connect_groups kind groups ac) u kind' = get2 ac u kind'.
Proof.
  intros Hne. apply (connect_groups_invariant (λ ac', get2 ac' u kind' = _)); [done|].
  intros ac' k ps _ <-. rewrite connect_group_get2.
  rewrite decide_False; [done | tauto].
Qed.


Lemma connect_groups_member ac u k ps :
  (∀ k' ps', groups !! k' = Some ps' → u ∈ ps' → ps' = ps) →
  groups !! k = Some ps → u ∈ ps → (1 < length ps)%nat →
  get2 (connect_groups kind groups ac) u kind = others ps u.
Proof.
  intros Huniq Hps Hu Hlen. unfold connect_groups.
  apply elem_of_map_to_list in Hps.
  assert (∀ item, item ∈ map_to_list groups → u ∈ item.2 → item.2 = ps) as Hl.
  { intros [k' ps'] Hin. apply (Huniq k' ps'). by apply elem_of_map_to_list. }
  revert Hps Hl. generalize (map_to_list groups). clear Huniq.
  induction l as [|x l IH] using rev_ind; intros Hps Hl.
  - by apply elem_of_nil in Hps.
  - rewrite foldl_snoc, connect_group_get2.
    destruct (decide (kind = kind ∧ u ∈ x.2 ∧ (1 < length x.2)%nat))
      as [(_ & Hux & _)|Hn].
    + rewrite (Hl x); [done | | done]. apply elem_of_app. right. by left.
    + apply IH.
      * apply elem_of_app in Hps as [?|Hx]; [done|].
        apply list_elem_of_singleton in Hx as <-. simpl in Hn. tauto.
      * intros item Hin. apply Hl. apply elem_of_app. by left.
Qed.
End connect_groups.

Lemma NoDup_fst_unique {A B} (l : list (A * B)) a b1 b2 :
  NoDup l.*1 → (a, b1) ∈ l → (a, b2) ∈ l → b1 = b2.
Proof.
  induction l as [|[a' b'] l IH]; simpl; [by intros _ ?%elem_of_nil|].
  intros [Hnotin Hnd]%NoDup_cons [Heq1|Hin1]%elem_of_cons [Heq2|Hin2]%elem_of_cons.
  - congruence.
  - injection Heq1 as -> ->. destruct Hnotin.
    apply list_elem_of_fmap. by exists (a', b2).
  - injection Heq2 as -> ->. destruct Hnotin.
    apply list_elem_of_fmap. by exists (a', b1).
  - by apply IH.
Qed.

Lemma elem_of_valid_players (pd : list (Z * PlayerData)) p d :
  (p, d) ∈ filter (λ item, has_name item.2) pd ↔ (p, d) ∈ pd ∧ has_name d.
Proof. rewrite list_elem_of_filter. simpl. tauto. Qed.

Section grouping.
Context `{Countable K} (key : PlayerData → option K) (kind : string).
Context (pd : list (Z * PlayerData)).

Local Abbreviation groups := (groups_of key pd).

Lemma group_member_data k ps p :
  groups !! k = Some ps → p ∈ ps →
  ∃ d, (p, d) ∈ pd ∧ has_name d ∧ key d = Some k.
Proof.
  intros ->%group_members [d [Hd Hk]]%elem_of_group_members.
  apply elem_of_valid_players in Hd as [? ?]. by exists d.
Qed.

Lemma connect_groups_sound ac u v :
  get2 ac u kind = [] →
  v ∈ get2 (connect_groups kind groups ac) u kind →
  u ≠ v ∧ ∃ du dv, (u, du) ∈ pd ∧ (v, dv) ∈ pd
                   ∧ has_name du ∧ has_name dv ∧ same_group key du dv.
Proof.
  intros Hac. revert v.
  apply (connect_groups_invariant kind groups
           (λ ac', ∀ v, v ∈ get2 ac' u kind → _)).
  - intros v. rewrite Hac. by intros ?%elem_of_nil.
  - intros ac' k ps Hps IH v. rewrite connect_group_get2.
    destruct (decide _) as [(_ & Hu & _)|_]; [|by apply IH].
    intros [Hne Hv]%elem_of_others.
    destruct (group_member_data k ps u Hps Hu) as (du & ? & ? & ?).
    destruct (group_member_data k ps v Hps Hv) as (dv & ? & ? & ?).
    split; [done|]. exists du, dv. repeat split; try done. by exists k.
Qed.

Lemma connect_groups_complete ac u v du dv :
  NoDup pd.*1 → u ≠ v → (u, du) ∈ pd → (v, dv) ∈ pd →
  has_name du → has_name dv → same_group key du dv →
  v ∈ get2 (connect_groups kind groups ac) u kind.
Proof.
  intros Hnd Hne Hu Hv Hnu Hnv (k & Hku & Hkv).
  destruct (group_exists key (filter (λ item, has_name item.2) pd) u du k)
    as (ps & Hps & Hups); [by apply elem_of_valid_players | done |].
  change (groups !! k = Some ps) in Hps.
  assert (v ∈ ps) as Hvps.
  { rewrite (group_members key _ k ps Hps). apply elem_of_group_members.
    exists dv. split; [by apply elem_of_valid_players | done]. }
  rewrite (connect_groups_member kind groups ac u k ps); [| | done | done |].
  - apply elem_of_others. split; [congruence | done].
  - intros k' ps' Hps' Hu'.
    destruct (group_member_data k' ps' u Hps' Hu') as (du' & Hdu' & _ & Hk').
    assert (du' = du) as Hdu by (by eapply NoDup_fst_unique).
    assert (k' = k) as Hk by congruence. congruence.
  - by apply (length_gt_1 ps u v).
Qed.

Lemma connect_groups_dom_named ac u :
  (u ∈ dom ac → named pd u) →
  u ∈ dom (connect_groups kind groups ac) → named pd u.
Proof.
  intros Hac.
  apply (connect_groups_invariant kind groups (λ ac', u ∈ dom ac' → _)); [done|].
  intros ac' k ps Hps IH [?|Hu]%connect_group_dom; [by apply IH|].
  destruct (group_member_data k ps u Hps Hu) as (d & ? & ? & _). by exists d.
Qed.
End grouping.

(** The loop that fills the group dictionaries: when it does not raise,
    each dictionary is filled independently of the others. *)
Lemma foldl_raise_cons {A B} (body : A → B → option A) a x (l : list B) :
  foldl_raise body a (x :: l) = body a x ≫= λ a', foldl_raise body a' l.
Proof.
  unfold foldl_raise. cbn [foldl mbind option_bind].
  destruct (body a x) as [a'|]; [done|].
  cbn [mbind option_bind]. by induction l as [|y l IH].
Qed.

Lemma groups_step_Some g p d g' :
  groups_step g (p, d) = Some g' →
  g' = {| country_groups := group_add (country_groups g) (country_key d) p;
          hand_groups := group_add (hand_groups g) (hand_key d) p;
          height_groups := group_add (height_groups g) (height_key d) p;
          year_groups := group_add (year_groups g) (year_key d) p |}.
Proof.
  unfold groups_step, height_key.
  destruct (get_truthy (p_height d)) as [h|]; cbn [mbind option_bind].
  - destruct (height_range h) as [r|]; cbn [mbind option_bind group_add];
      [|done]. by intros [= <-].
  - by intros [= <-].
Qed.

Lemma groups_step_is_Some g p d :
  is_Some (groups_step g (p, d))
  ↔ ∀ h, get_truthy (p_height d) = Some h → is_Some (height_range h).
Proof.
  unfold groups_step.
  destruct (get_truthy (p_height d)) as [h|]; cbn [mbind option_bind].
  - destruct (height_range h) as [r|] eqn:Hr; cbn [mbind option_bind].
    + split; [|by eexists]. intros _ h' [= <-]. by rewrite Hr.
    + split; [by intros [? ?]|]. intros Hh.
      destruct (Hh h eq_refl) as [r Hr']. congruence.
  - split; [done | by eexists].
Qed.

Lemma groups_fold_Some items g g' :
  foldl_raise groups_step g items = Some g' →
  country_groups g'
  = foldl (λ g item, group_add g (country_key item.2) item.1)
          (country_groups g) items
  ∧ hand_groups g'
    = foldl (λ g item, group_add g (hand_key item.2) item.1)
            (hand_groups g) items
  ∧ height_groups g'
    = foldl (λ g item, group_add g (height_key item.2) item.1)
            (height_groups g) items
  ∧ year_groups g'
    = foldl (λ g item, group_add g (year_key item.2) item.1)
            (year_groups g) items.
Proof.
  revert g. induction items as [|[p d] items IH]; intros g.
  - by intros [= <-].
  - rewrite foldl_raise_cons.
    destruct (groups_step g (p, d)) as [g1|] eqn:Hstep; [|done].
    cbn [mbind option_bind]. intros Hg'%IH.
    apply groups_step_Some in Hstep as ->. exact Hg'.
Qed.

Lemma groups_fold_is_Some items g :
  is_Some (foldl_raise groups_step g items)
  ↔ ∀ p d h, (p, d) ∈ items → get_truthy (p_height d) = Some h →
             is_Some (height_range h).
Proof.
  revert g. induction items as [|[p d] items IH]; intros g.
  - split; [|by eexists]. by intros _ p d h ?%elem_of_nil.
  - rewrite foldl_raise_cons. split.
    + destruct (groups_step g (p, d)) as [g1|] eqn:Hstep;
        [|by intros [? ?]]. cbn [mbind option_bind].
      intros Hrest p' d' h [[= -> ->]|Hin]%elem_of_cons Hh.
      * eapply groups_step_is_Some; [by eexists | done].
      * by eapply IH.
    + intros Hall.
      destruct (proj2 (groups_step_is_Some g p d)) as [g1 ->].
      { intros h. apply (Hall p d h). by left. }
      cbn [mbind option_bind]. apply IH. intros p' d' h Hin.
      apply (Hall p' d' h). by right.
Qed.

(** The attribute connections, when the extractor returns them. *)
Lemma extract_attribute_connections_Some pd attr :
  extract_attribute_connections pd = Some attr →
  attr
  = connect_groups "same_birth_year" (groups_of year_key pd)
      (connect_groups "similar_height" (groups_of height_key pd)
         (connect_groups "same_hand" (groups_of hand_key pd)
            (connect_groups "same_country" (groups_of country_key pd) ∅))).
Proof.
  unfold extract_attribute_connections, groups_of.
  destruct (foldl_raise groups_step _ _) as [g|] eqn:Hg; [|done].
  cbn [mbind option_bind]. intros [= <-].
  apply groups_fold_Some in Hg as (-> & -> & -> & ->). done.
Qed.

(** The extractor raises exactly when a named player has a true height
    without a range. *)
Lemma extract_attribute_connections_is_Some pd :
  is_Some (extract_attribute_connections pd)
  ↔ ∀ p d h, (p, d) ∈ pd → has_name d → get_truthy (p_height d) = Some h →
             is_Some (height_range h).
Proof.
  unfold extract_attribute_connections.
  assert (is_Some (foldl_raise groups_step
            {| country_groups := ∅; hand_groups := ∅;
               height_groups := ∅; year_groups := ∅ |}
            (filter (λ item, has_name item.2) pd))
          ↔ ∀ p d h, (p, d) ∈ pd → has_name d →
                     get_truthy (p_height d) = Some h →
                     is_Some (height_range h)) as <-.
  { rewrite groups_fold_is_Some. split.
    - intros Hall p d h Hin Hn. apply (Hall p d h).
      by apply elem_of_valid_players.
    - intros Hall p d h [Hin Hn]%elem_of_valid_players. by apply (Hall p d h). }
  destruct (foldl_raise groups_step _ _) as [g|]; cbn [mbind option_bind].
  - split; by eexists.
  - split; by intros [? ?].
Qed.

Lemma heights_numeric_is_Some pd :
  heights_numeric pd → is_Some (extract_attribute_connections pd).
Proof.
  intros Hnum. apply extract_attribute_connections_is_Some.
  intros p d h Hin Hn Hh. destruct (Hnum p d h Hin Hn Hh) as [z ->].
  by eexists.
Qed.

Lemma attribute_connections_sound pd attr u v :
  extract_attribute_connections pd = Some attr →
  (v ∈ get2 attr u "same_country" → grouped (same_group country_key) pd u v)
  ∧ (v ∈ get2 attr u "same_hand" → grouped (same_group hand_key) pd u v)
  ∧ (v ∈ get2 attr u "similar_height"
     → grouped (same_group height_key) pd u v)
  ∧ (v ∈ get2 attr u "same_birth_year"
     → grouped (same_group year_key) pd u v).
Proof.
  intros ->%extract_attribute_connections_Some. unfold grouped.
  split_and!.
  - rewrite !(connect_groups_other _ _ _ _ "same_country") by done.
    by apply connect_groups_sound, get2_empty.
  - rewrite !(connect_groups_other _ _ _ _ "same_hand") by done.
    apply connect_groups_sound.
    by rewrite connect_groups_other, get2_empty.
  - rewrite !(connect_groups_other _ _ _ _ "similar_height") by done.
    apply connect_groups_sound.
    by rewrite !connect_groups_other, get2_empty.
  - apply connect_groups_sound.
    by rewrite !connect_groups_other, get2_empty.
Qed.

Lemma attribute_connections_complete pd attr u v :
  extract_attribute_connections pd = Some attr →
  NoDup pd.*1 →
  (grouped (same_group country_key) pd u v → v ∈ get2 attr u "same_country")
  ∧ (grouped (same_group hand_key) pd u v → v ∈ get2 attr u "same_hand")
  ∧ (grouped (same_group height_key) pd u v
     → v ∈ get2 attr u "similar_height")
  ∧ (grouped (same_group year_key) pd u v
     → v ∈ get2 attr u "same_birth_year").
Proof.
  intros ->%extract_attribute_connections_Some Hnd. unfold grouped.
  split_and!.
  - rewrite !(connect_groups_other _ _ _ _ "same_country") by done.
    intros (? & du & dv & ? & ? & ? & ? & ?). by eapply connect_groups_complete.
  - rewrite !(connect_groups_other _ _ _ _ "same_hand") by done.
    intros (? & du & dv & ? & ? & ? & ? & ?). by eapply connect_groups_complete.
  - rewrite !(connect_groups_other _ _ _ _ "similar_height") by done.
    intros (? & du & dv & ? & ? & ? & ? & ?). by eapply connect_groups_complete.
  - intros (? & du & dv & ? & ? & ? & ? & ?). by eapply connect_groups_complete.
Qed.

Lemma attribute_connections_char pd attr u v :
  extract_attribute_connections pd = Some attr →
  NoDup pd.*1 →
  (v ∈ get2 attr u "same_country" ↔ grouped (same_group country_key) pd u v)
  ∧ (v ∈ get2 attr u "same_hand" ↔ grouped (same_group hand_key) pd u v)
  ∧ (v ∈ get2 attr u "similar_height"
     ↔ grouped (same_group height_key) pd u v)
  ∧ (v ∈ get2 attr u "same_birth_year"
     ↔ grouped (same_group year_key) pd u v).
Proof.
  intros Hattr Hnd.
  destruct (attribute_connections_sound pd attr u v Hattr) as (? & ? & ? & ?).
  destruct (attribute_connections_complete pd attr u v Hattr Hnd)
    as (? & ? & ? & ?).
  by split_and!.
Qed.

Lemma attribute_connections_dom_named pd attr u :
  extract_attribute_connections pd = Some attr →
  u ∈ dom attr → named pd u.
Proof.
  intros ->%extract_attribute_connections_Some.
  do 4 apply connect_groups_dom_named. by intros ?%elem_of_empty.
Qed.

(** ** Tournament-Co-Participation extractor *)

Lemma for_pairs_pass {A S} (l : list A) (st : S) :
  for_pairs (λ st _ _, st) l st = st.
Proof.
  induction l as [|x l IH]; simpl; [done|].
  assert (foldl (λ (st : S) (_ : A), st) st l = st) as ->; [|done].
  clear IH. by induction l as [|y l IHl].
Qed.

Lemma connect_finalists_pass gs_finalists tc :
  connect_finalists gs_finalists tc = tc.
Proof.
  unfold connect_finalists. apply (foldl_invariant (λ tc', tc' = tc)); [done|].
  intros tc' item _ ->. apply for_pairs_pass.
Qed.

Lemma tournament_players_appear matches k s p :
  foldl tournament_players_step ∅ matches !! k = Some s → p ∈ s →
  ∃ m, m ∈ matches ∧ appears_in m p.
Proof.
  revert k s p.
  apply (foldl_invariant (λ tp : gmap string (gset Z), ∀ k s p,
           tp !! k = Some s → p ∈ s → ∃ m, m ∈ matches ∧ appears_in m p)).
  - intros k s p. by rewrite lookup_empty.
  - intros tp m Hm IH k s p. unfold tournament_players_step.
    destruct (truthy_cell _ && truthy_int _); [|by apply IH].
    set (key := cell_str _ +:+ _).
    assert (∀ (tp' : gmap string (gset Z)) w,
      appears_in m w →
      (∀ k s p, tp' !! k = Some s → p ∈ s → ∃ m, m ∈ matches ∧ appears_in m p) →
      ∀ k s p, dd_add tp' key w !! k = Some s → p ∈ s →
               ∃ m, m ∈ matches ∧ appears_in m p) as Hadd.
    { intros tp' w Hw IH' k' s' p'. unfold dd_add.
      destruct (decide (key = k')) as [<-|Hne].
      - rewrite lookup_insert_eq. intros [= <-].
        intros [Hp| ->%elem_of_singleton]%elem_of_union; [|by exists m].
        destruct (tp' !! key) as [s0|] eqn:Hs0; [by eapply IH'|].
        by apply elem_of_empty in Hp.
      - rewrite lookup_insert_ne by done. apply IH'. }
    destruct (m_winner_id m) as [w|] eqn:Hw, (m_loser_id m) as [l|] eqn:Hl.
    + apply Hadd; [by right|]. apply Hadd; [by left | done].
    + apply Hadd; [by left | done].
    + apply Hadd; [by right | done].
    + apply IH.
Qed.

Lemma connect_tournaments_invariant (P : gmap Z (gmap string (gset Z)) → Prop)
    tp tc :
  P tc →
  (∀ tc' k s p1 p2, tp !! k = Some s → p1 ∈ s → p2 ∈ s → p1 ≠ p2 →
                    P tc' → P (connect_pair tc' p1 p2)) →
  P (connect_tournaments tp tc).
Proof.
  intros Htc Hstep. unfold connect_tournaments.
  apply foldl_invariant; [done|]. intros tc' [k s] Hin%elem_of_map_to_list Htc'.
  apply for_pairs_invariant; [apply NoDup_elements | done |].
  intros tc'' p1 p2 Hp1%elem_of_elements Hp2%elem_of_elements Hne.
  by apply (Hstep tc'' k s).
Qed.

Lemma tournament_set_dd_add2 tc p v u :
  tournament_set (dd_add2 tc p "same_tournament" v) u
  = if decide (p = u) then tournament_set tc p ∪ {[v]} else tournament_set tc u.
Proof.
  unfold tournament_set, dd_add2. destruct (decide (p = u)) as [->|Hne].
  - rewrite lookup_insert_eq. simpl. rewrite dd_add_lookup. by rewrite decide_True.
  - by rewrite lookup_insert_ne.
Qed.

Lemma tournament_set_connect_pair tc p1 p2 u v :
  v ∈ tournament_set (connect_pair tc p1 p2) u
  ↔ v ∈ tournament_set tc u ∨ (u = p1 ∧ v = p2) ∨ (u = p2 ∧ v = p1).
Proof.
  unfold connect_pair. rewrite !tournament_set_dd_add2.
  repeat destruct (decide _) as [?|?]; subst;
    rewrite ?tournament_set_dd_add2, ?elem_of_union, ?elem_of_singleton;
    repeat destruct (decide _) as [?|?]; subst;
    rewrite ?elem_of_union, ?elem_of_singleton;
    intuition (subst; first [congruence | auto]).
Qed.

Lemma dom_connect_pair tc p1 p2 :
  dom (connect_pair tc p1 p2) = {[p2]} ∪ ({[p1]} ∪ dom tc).
Proof. unfold connect_pair, dd_add2. by rewrite !dom_insert_L. Qed.

Lemma get2_tournament_connections (tc : gmap Z (gmap string (gset Z))) u v :
  v ∈ get2 (fmap (M := gmap Z) (fmap (M := gmap string) elements) tc)
           u "same_tournament"
  ↔ v ∈ tournament_set tc u.
Proof.
  unfold get2, tournament_set. rewrite lookup_fmap.
  destruct (tc !! u) as [inner|]; simpl.
  - rewrite lookup_fmap. destruct (inner !! "same_tournament"); simpl.
    + apply elem_of_elements.
    + by rewrite elem_of_nil, elem_of_empty.
  - rewrite !lookup_empty. simpl. by rewrite elem_of_nil, elem_of_empty.
Qed.

Lemma tournament_connections_inv matches gs :
  ∃ tc : gmap Z (gmap string (gset Z)),
    extract_tournament_connections matches gs
    = fmap (M := gmap Z) (fmap (M := gmap string) elements) tc
    ∧ (∀ u v, v ∈ tournament_set tc u → u ∈ tournament_set tc v)
    ∧ (∀ u, u ∉ tournament_set tc u)
    ∧ (∀ u, u ∈ dom tc → ∃ m, m ∈ matches ∧ appears_in m u).
Proof.
  unfold extract_tournament_connections. rewrite connect_finalists_pass.
  eexists. split; [reflexivity|].
  apply (connect_tournaments_invariant (λ tc,
    (∀ u v, v ∈ tournament_set tc u → u ∈ tournament_set tc v)
    ∧ (∀ u, u ∉ tournament_set tc u)
    ∧ (∀ u, u ∈ dom tc → ∃ m, m ∈ matches ∧ appears_in m u))).
  - split_and!.
    + intros u v. unfold tournament_set. rewrite lookup_empty. simpl.
      rewrite lookup_empty. by intros ?%elem_of_empty.
    + intros u. unfold tournament_set. rewrite lookup_empty. simpl.
      rewrite lookup_empty. apply not_elem_of_empty.
    + intros u. by intros ?%elem_of_empty.
  - intros tc k s p1 p2 Hs Hp1 Hp2 Hne (Hsym & Hirr & Hdom). split_and!.
    + intros u v. rewrite !tournament_set_connect_pair.
      intros [?|[[-> ->]|[-> ->]]]; auto.
    + intros u. rewrite tournament_set_connect_pair.
      intros [?|[[-> ->]|[-> ->]]]; [by eapply Hirr | done..].
    + intros u. rewrite dom_connect_pair.
      intros [->%elem_of_singleton|[->%elem_of_singleton|?]%elem_of_union]%elem_of_union;
        [by eapply tournament_players_appear..|by apply Hdom].
Qed.

(** ** Vertices and neighbour lists of the merged graph *)

Lemma lists_build h2h attr tour K v u :
  lists (build_connection_graph h2h attr tour) K v u
  ↔ u ∈ neighbours K (connections_of h2h attr tour v).
Proof.
  unfold lists. rewrite build_connection_graph_lookup. split.
  - intros (c & Hc & Hu). destruct (decide _); [|done]. by injection Hc as <-.
  - intros Hu. eexists. split; [|exact Hu].
    rewrite decide_True; [done|]. rewrite !elem_of_union.
    destruct K; simpl in Hu.
    + left. left. apply elem_of_elements in Hu. by eapply opponents_elem_dom.
    + left. right. by eapply get2_elem_dom.
    + left. right. by eapply get2_elem_dom.
    + left. right. by eapply get2_elem_dom.
    + left. right. by eapply get2_elem_dom.
    + right. by eapply get2_elem_dom.
Qed.

Lemma vertex_origin h2h attr tour v :
  is_Some (build_connection_graph h2h attr tour !! v) →
  v ∈ dom h2h ∨ v ∈ dom attr ∨ v ∈ dom tour.
Proof.
  rewrite build_connection_graph_lookup.
  destruct (decide _) as [Hv|]; [|by intros [? ?]].
  intros _. rewrite !elem_of_union in Hv. tauto.
Qed.

(** ** Players of one group *)

Lemma grouped_sym {K} (key : PlayerData → option K) pd u v :
  grouped (same_group key) pd u v → grouped (same_group key) pd v u.
Proof.
  intros (? & du & dv & ? & ? & ? & ? & k & ? & ?). split; [done|].
  exists dv, du. split_and!; try done. by exists k.
Qed.

Lemma grouped_named share pd u v : grouped share pd u v → named pd v.
Proof. intros (_ & du & dv & _ & ? & _ & ? & _). by exists dv. Qed.

(** ** Match details in input order *)

Lemma match_details_in_order matches pd v :
  default [] ((extract_head_to_head_connections matches pd).2 !! v)
  = mjoin (row_details v <$> matches).
Proof.
  unfold extract_head_to_head_connections.
  assert (∀ st, default [] ((foldl h2h_step st matches).2 !! v)
                = default [] (st.2 !! v) ++ mjoin (row_details v <$> matches)) as Hgen.
  { induction matches as [|m matches IH]; intros st; simpl.
    - by rewrite app_nil_r.
    - rewrite IH, app_assoc. f_equal.
      unfold h2h_step, row_details.
      destruct (m_winner_id m) as [w|]; [|by rewrite app_nil_r].
      destruct (m_loser_id m) as [l|]; [|by rewrite app_nil_r].
      simpl. unfold dd_append.
      destruct (decide (l = v)) as [->|Hl], (decide (w = v)) as [->|Hw];
        rewrite ?lookup_insert_eq, ?lookup_insert_ne by done; simpl;
        rewrite ?lookup_insert_eq, ?lookup_insert_ne by done; simpl;
        by rewrite <- ?app_assoc, ?app_nil_r. }
  rewrite Hgen. simpl. by rewrite lookup_empty.
Qed.

(** ** Popular players *)

Lemma player_info_Some h2h min item a :
  player_info h2h min item = Some a →
  pi_id a = item.1 ∧ has_name item.2
  ∧ pi_connections a = size (opponents h2h item.1)
  ∧ min ≤ Z.of_nat (size (opponents h2h item.1)).
Proof.
  destruct item as [p d]. unfold player_info, opponents, has_name.
  destruct (p_name d) as [name|] eqn:Hname; [|done].
  destruct (h2h !! p) as [s|] eqn:Hs; [|done].
  case_bool_decide; [|done]. intros [= <-]. simpl. rewrite Hname, Hs.
  split_and!; by eauto.
Qed.

Lemma player_info_is_Some h2h min p d :
  0 < min → has_name d → min ≤ Z.of_nat (size (opponents h2h p)) →
  is_Some (player_info h2h min (p, d)).
Proof.
  unfold player_info, opponents. intros Hmin [name ->] Hsz.
  destruct (h2h !! p) as [s|]; cbn [default] in Hsz.
  - rewrite bool_decide_eq_true_2 by done. eauto.
  - rewrite size_empty in Hsz. lia.
Qed.

Lemma elem_of_popular_ids pd h2h min p :
  0 < min →
  p ∈ pi_id <$> get_popular_players pd h2h min
  ↔ ∃ d, (p, d) ∈ pd ∧ has_name d ∧ min ≤ Z.of_nat (size (opponents h2h p)).
Proof.
  intros Hmin. unfold get_popular_players. rewrite sort_desc_perm.
  rewrite list_elem_of_fmap. split.
  - intros (a & -> & Ha). apply list_elem_of_omap in Ha as ([p d] & Hin & Ha).
    apply player_info_Some in Ha as (-> & ? & _ & ?). by exists d.
  - intros (d & Hin & Hn & Hsz).
    destruct (player_info_is_Some h2h min p d) as [a Ha]; [done..|].
    exists a. split.
    + by apply player_info_Some in Ha as (-> & _).
    + apply list_elem_of_omap. by exists (p, d).
Qed.

Lemma popular_connections pd h2h min a :
  a ∈ get_popular_players pd h2h min →
  pi_connections a = size (opponents h2h (pi_id a)).
Proof.
  unfold get_popular_players. rewrite sort_desc_perm.
  intros ([p d] & Hin & Ha)%list_elem_of_omap.
  by apply player_info_Some in Ha as (-> & _ & -> & _).
Qed.

Lemma h2h_dom_details matches pd :
  dom (extract_head_to_head_connections matches pd).2
  = dom (extract_head_to_head_connections matches pd).1.
Proof.
  unfold extract_head_to_head_connections.
  apply (foldl_invariant (λ st, dom st.2 = dom st.1)).
  - simpl. by rewrite !dom_empty_L.
  - intros st m _ IH. unfold h2h_step.
    destruct (m_winner_id m) as [w|]; [|done].
    destruct (m_loser_id m) as [l|]; [|done].
    simpl. unfold dd_append, dd_add. by rewrite !dom_insert_L, IH.
Qed.

Lemma h2h_self_loop_origin matches pd u :
  u ∈ opponents (extract_head_to_head_connections matches pd).1 u →
  ∃ m, m ∈ matches ∧ self_match m u.
Proof.
  unfold extract_head_to_head_connections. revert u.
  apply (foldl_invariant (λ st, ∀ u, u ∈ opponents st.1 u →
                                  ∃ m, m ∈ matches ∧ self_match m u)).
  - intros u. unfold opponents. simpl. rewrite lookup_empty.
    by intros ?%elem_of_empty.
  - intros st m Hm IH u. unfold h2h_step.
    destruct (m_winner_id m) as [w|] eqn:Hw; [|by apply IH].
    destruct (m_loser_id m) as [l|] eqn:Hl; [|by apply IH].
    simpl. rewrite !opponents_dd_add.
    repeat destruct (decide _) as [?|?]; subst;
      rewrite ?elem_of_union, ?elem_of_singleton;
      intuition (subst; first [congruence | by auto | (exists m; by split)]).
Qed.

Lemma retained_popular now_year now_iso matches pd gs doc v :
  main now_year now_iso matches pd gs = Written doc → v ∈ retained doc →
  ∃ d, (v, d) ∈ pd ∧ has_name d
       ∧ 8 ≤ Z.of_nat (size (opponents
                 (extract_head_to_head_connections matches pd).1 v)).
Proof.
  intros (_ & Hp & _)%main_Written Hv. unfold retained in Hv. rewrite Hp in Hv.
  apply (elem_of_popular_ids pd _ 8); [done|].
  apply list_elem_of_fmap in Hv as (a & -> & Ha%subseteq_take).
  apply list_elem_of_fmap. by exists a.
Qed.

Lemma merged_graph_Some matches pd gs g :
  merged_graph matches pd gs = Some g →
  ∃ attr, extract_attribute_connections pd = Some attr
          ∧ g = build_connection_graph
                  (extract_head_to_head_connections matches pd).1 attr
                  (extract_tournament_connections matches gs).
Proof.
  unfold merged_graph.
  destruct (extract_attribute_connections pd) as [attr|]; [|done].
  intros [= <-]. by exists attr.
Qed.

(** * The properties of the specification *)

(** C2. For every vertex [v] of the merged graph, [total_connections] is the
    cardinality of the union of the six neighbour lists of [v], taken as
    sets: it is the number of distinct ids over the six lists, hence at most
    the sum of their lengths, and a neighbour met under two kinds counts
    once. *)
Theorem total_connections_is_union_size matches pd gs g v c :
  merged_graph matches pd gs = Some g →
  g !! v = Some c →
  total_connections c
  = size (list_to_set (direct_opponents c) ∪ list_to_set (same_country c)
          ∪ list_to_set (same_hand c) ∪ list_to_set (similar_height c)
          ∪ list_to_set (same_birth_year c)
          ∪ list_to_set (same_tournament c) : gset Z)
  ∧ total_connections c
    = length (remove_dups (direct_opponents c ++ same_country c ++ same_hand c
                ++ similar_height c ++ same_birth_year c ++ same_tournament c))
  ∧ (total_connections c
     ≤ length (direct_opponents c) + length (same_country c)
       + length (same_hand c) + length (similar_height c)
       + length (same_birth_year c) + length (same_tournament c))%nat.
Proof.
  intros (attr & _ & ->)%merged_graph_Some.
  rewrite build_connection_graph_lookup.
  destruct (decide _); [|done]. intros [= <-].
  cbn [connections_of total_connections direct_opponents same_country
       same_hand similar_height same_birth_year same_tournament foldl].
  rewrite (left_id_L ∅ (∪)).
  assert (∀ l : list Z,
    size (list_to_set l : gset Z) = length (remove_dups l)) as Hsz.
  { intros l.
    rewrite <- (size_list_to_set (C:=gset Z)) by apply NoDup_remove_dups.
    f_equal. apply set_eq. intros x.
    by rewrite !elem_of_list_to_set, elem_of_remove_dups. }
  split; [done|].
  rewrite <- !(assoc_L (∪)), <- !list_to_set_app_L.
  split; [apply Hsz|].
  rewrite Hsz. etrans; [apply length_remove_dups_le|].
  rewrite !length_app. lia.
Qed.

Lemma total_connections_is_union_size_witness :
  ∃ g c, merged_graph sample_matches sample_players [] = Some g
       ∧ g !! 1 = Some c
       ∧ total_connections c = 3%nat
       ∧ (length (direct_opponents c) + length (same_country c)
          + length (same_hand c) + length (similar_height c)
          + length (same_birth_year c) + length (same_tournament c) = 10)%nat
       ∧ total_connections c
         = size (list_to_set (direct_opponents c) ∪ list_to_set (same_country c)
                 ∪ list_to_set (same_hand c) ∪ list_to_set (similar_height c)
                 ∪ list_to_set (same_birth_year c)
                 ∪ list_to_set (same_tournament c) : gset Z).
Proof.
  eexists _, _. split; [vm_compute; reflexivity|].
  split; [vm_compute; reflexivity|].
  split; [reflexivity|]. split; [reflexivity|].
  refine (proj1 (total_connections_is_union_size sample_matches sample_players
                   [] _ 1 _ _ _)).
  - vm_compute. reflexivity.
  - vm_compute. reflexivity.
Defined.

(** C8. The Grand Slam final records have no effect on what is produced:
    for the same match rows, players and clock, any two lists of final
    records give the same tournament connections, the same merged graph and
    the same document (candidate list, connections, details, metadata). *)
Theorem final_records_have_no_effect now_year now_iso matches pd gs1 gs2 :
  extract_tournament_connections matches gs1
  = extract_tournament_connections matches gs2
  ∧ merged_graph matches pd gs1 = merged_graph matches pd gs2
  ∧ main now_year now_iso matches pd gs1 = main now_year now_iso matches pd gs2.
Proof.
  assert (extract_tournament_connections matches gs1
          = extract_tournament_connections matches gs2) as Ht.
  { unfold extract_tournament_connections. by rewrite !connect_finalists_pass. }
  split; [done|]. split.
  - unfold merged_graph. by rewrite Ht.
  - unfold main. by rewrite Ht.
Qed.

(** C6. In the merged graph every relation edge is symmetric: for every
    kind [K] and players [u], [v], the vertex [v] lists [u] under [K] if and
    only if the vertex [u] lists [v] under [K]. The keys of [players_data]
    are pairwise distinct, as the keys of a dictionary are. *)
Theorem relation_edges_symmetric matches pd gs g K u v :
  NoDup pd.*1 →
  merged_graph matches pd gs = Some g →
  lists g K v u ↔ lists g K u v.
Proof.
  intros Hnd (attr & Hattr & ->)%merged_graph_Some.
  assert (∀ a b,
    lists (build_connection_graph
             (extract_head_to_head_connections matches pd).1 attr
             (extract_tournament_connections matches gs)) K a b →
    lists (build_connection_graph
             (extract_head_to_head_connections matches pd).1 attr
             (extract_tournament_connections matches gs)) K b a) as Hsym;
    [|split; apply Hsym].
  intros a b. rewrite !lists_build.
  destruct (attribute_connections_char pd attr a b Hattr Hnd)
    as (Hc & Hh & Hb & Hy).
  destruct (attribute_connections_char pd attr b a Hattr Hnd)
    as (Hc' & Hh' & Hb' & Hy').
  destruct K; cbn [neighbours connections_of direct_opponents same_country
                   same_hand similar_height same_birth_year same_tournament].
  - rewrite !elem_of_elements. apply h2h_opponents_symmetric.
  - rewrite Hc, Hc'. apply grouped_sym.
  - rewrite Hh, Hh'. apply grouped_sym.
  - rewrite Hb, Hb'. apply grouped_sym.
  - rewrite Hy, Hy'. apply grouped_sym.
  - destruct (tournament_connections_inv matches gs) as (tc & -> & Hs & _).
    rewrite !get2_tournament_connections. apply Hs.
Qed.

Lemma relation_edges_symmetric_witness :
  NoDup sample_players.*1
  ∧ ∃ g, merged_graph sample_matches sample_players [] = Some g
         ∧ (lists g SameCountry 1 2 ↔ lists g SameCountry 2 1).
Proof.
  assert (NoDup sample_players.*1) as Hnd.
  { apply (bool_decide_unpack _). vm_compute. exact I. }
  split; [exact Hnd|]. eexists. split; [vm_compute; reflexivity|].
  apply (relation_edges_symmetric sample_matches sample_players [] _
           SameCountry 2 1 Hnd).
  vm_compute. reflexivity.
Defined.

(** C9, at the failing inputs. Two players whose country and hand the
    loader left as NaN, the form an empty cell of the players file takes,
    are not kept out of the two groupings: NaN is true, both enter the group
    of key NaN and each lists the other under same_country and same_hand.
    And a named player whose height holds NaN is not kept out of the height
    grouping either: the range of the height raises, the extractor returns
    nothing and [main] ends on the exception, before the document is
    written. *)
Theorem missing_attribute_is_grouped_or_raises :
  (∃ attr,
     extract_attribute_connections stateless_players = Some attr
     ∧ get2 attr 1 "same_country" = [2]
     ∧ get2 attr 2 "same_country" = [1]
     ∧ get2 attr 1 "same_hand" = [2]
     ∧ get2 attr 2 "same_hand" = [1])
  ∧ extract_attribute_connections nan_height_players = None
  ∧ main 2024 "" sample_matches nan_height_players [] = Raised.
Proof.
  split; [|split].
  - eexists. split; [vm_compute; reflexivity|].
    split_and!; vm_compute; reflexivity.
  - vm_compute. reflexivity.
  - vm_compute. reflexivity.
Qed.

(** C1, against the claim as stated: player 1 beats players 2 to 9, so
    player 1 alone reaches 8 direct opponents and is the only retained
    vertex; its serialized [direct_opponents] list still holds player 2,
    who is not retained. *)
Lemma retained_vertex_lists_outsider :
  ∃ doc c, main 2024 "" (star_matches 8) sample_players [] = Written doc
           ∧ retained doc = [1]
           ∧ doc_connections doc !! pretty 1 = Some c
           ∧ 2 ∈ direct_opponents c
           ∧ 2 ∉ retained doc.
Proof.
  eexists _, _. split; [vm_compute; reflexivity|].
  split; [reflexivity|]. split; [vm_compute; reflexivity|].
  split.
  - apply (bool_decide_unpack _). vm_compute. exact I.
  - apply (bool_decide_unpack _). vm_compute. exact I.
Qed.

(** C1, as the code has it. The [connections] section of the document has
    exactly one entry per retained vertex of the merged graph, under the
    key [str(id)], and the entry is the record of that vertex in the merged
    graph, unchanged: the truncation removes vertices, it filters no
    neighbour list. The match details of a retained vertex are cut from its
    full list, and the count of a candidate is the size of its full set of
    direct opponents. *)
Theorem serialized_connections_unfiltered now_year now_iso matches pd gs doc :
  main now_year now_iso matches pd gs = Written doc →
  (∃ g, merged_graph matches pd gs = Some g
        ∧ ∀ k c, doc_connections doc !! k = Some c
                 ↔ ∃ v, k = pretty v ∧ v ∈ retained doc ∧ g !! v = Some c)
  ∧ (∀ v, v ∈ retained doc →
          doc_match_details doc !! pretty v
          = take 50 <$> (extract_head_to_head_connections matches pd).2 !! v)
  ∧ (∀ a, a ∈ doc_players doc →
          pi_connections a
          = size (opponents (extract_head_to_head_connections matches pd).1
                            (pi_id a))).
Proof.
  intros Hmain.
  destruct (main_Written _ _ _ _ _ _ Hmain)
    as (_ & Hp & (g & Hg & Hc) & _ & Hm).
  split_and!.
  - exists g. split; [done|]. intros k c. rewrite Hc. split.
    + intros Hk.
      assert (is_Some (filter_connections g
                (elements (list_to_set (retained doc) : gset Z)) !! k)) as Hs
        by by eexists.
      apply filter_connections_key in Hs as (v & Hv & ->).
      rewrite filter_connections_lookup in Hk. destruct (decide _); [|done].
      exists v. by rewrite <- elem_of_top_player_ids.
    + intros (v & -> & Hv & Hgv). rewrite filter_connections_lookup.
      by rewrite decide_True by by apply elem_of_top_player_ids.
  - intros v Hv. rewrite Hm, filter_match_details_lookup.
    by rewrite decide_True by by apply elem_of_top_player_ids.
  - intros a Ha. rewrite Hp in Ha. apply subseteq_take in Ha.
    by eapply popular_connections.
Qed.

Lemma serialized_connections_unfiltered_witness :
  ∃ doc, main 2024 "" (star_matches 8) sample_players [] = Written doc
    ∧ ∃ g, merged_graph (star_matches 8) sample_players [] = Some g
           ∧ ∀ k c, doc_connections doc !! k = Some c
                    ↔ ∃ v, k = pretty v ∧ v ∈ retained doc ∧ g !! v = Some c.
Proof.
  eexists. split; [vm_compute; reflexivity|].
  apply (serialized_connections_unfiltered 2024 "" (star_matches 8)
           sample_players []).
  vm_compute. reflexivity.
Defined.

(** C3, against the claim as stated: player 1 plays 51 matches; the 50
    serialized entries are the first 50 of the full list, which are not its
    last 50. *)
Lemma match_details_keep_oldest :
  ∃ doc full l,
    main 2024 "" (star_matches 51) sample_players [] = Written doc
    ∧ 1 ∈ retained doc
    ∧ (extract_head_to_head_connections (star_matches 51) sample_players).2 !! 1
      = Some full
    ∧ length full = 51%nat
    ∧ doc_match_details doc !! pretty 1 = Some l
    ∧ l = take 50 full
    ∧ l ≠ most_recent 50 full.
Proof.
  eexists _, _, _. split; [vm_compute; reflexivity|].
  split; [apply (bool_decide_unpack _); vm_compute; exact I|].
  split; [vm_compute; reflexivity|].
  split; [reflexivity|].
  split; [vm_compute; reflexivity|].
  split; [reflexivity|].
  vm_compute. discriminate.
Qed.

(** C3, as the code has it. For every retained vertex the serialized
    match-detail list is the first 50 entries of the vertex's full list,
    which holds the entries of its match rows in input order: at most 50
    entries, a prefix of the full list, the oldest ones when the input is
    oldest first. Only retained vertices have a serialized list. *)
Theorem match_details_first_50 now_year now_iso matches pd gs doc :
  main now_year now_iso matches pd gs = Written doc →
  (∀ v, v ∈ retained doc →
     ∃ full l,
       (extract_head_to_head_connections matches pd).2 !! v = Some full
       ∧ full = mjoin (row_details v <$> matches)
       ∧ doc_match_details doc !! pretty v = Some l
       ∧ l = take 50 full
       ∧ (length l ≤ 50)%nat
       ∧ l `prefix_of` full)
  ∧ (∀ k, is_Some (doc_match_details doc !! k) →
          ∃ v, v ∈ retained doc ∧ k = pretty v).
Proof.
  intros Hmain. destruct (main_Written _ _ _ _ _ _ Hmain) as (_ & _ & _ & _ & Hm).
  split.
  - intros v Hv.
    destruct (retained_popular _ _ _ _ _ _ v Hmain Hv) as (d & _ & _ & Hsz).
    assert (v ∈ dom (extract_head_to_head_connections matches pd).2) as Hdom.
    { rewrite h2h_dom_details. apply elem_of_dom. unfold opponents in Hsz.
      destruct (_ !! v); [done|]. cbn [default] in Hsz.
      rewrite size_empty in Hsz. lia. }
    apply elem_of_dom in Hdom as [full Hfull].
    exists full, (take 50 full). split_and!; try done.
    + pose proof (match_details_in_order matches pd v) as Hord.
      by rewrite Hfull in Hord.
    + rewrite Hm, filter_match_details_lookup.
      rewrite decide_True by by apply elem_of_top_player_ids.
      by rewrite Hfull.
    + rewrite length_take. lia.
    + apply prefix_take.
  - intros k Hk. rewrite Hm in Hk.
    apply filter_match_details_key in Hk as (v & Hv & ->).
    exists v. by rewrite <- elem_of_top_player_ids.
Qed.

Lemma match_details_first_50_witness :
  ∃ doc, main 2024 "" (star_matches 51) sample_players [] = Written doc
    ∧ (∀ k, is_Some (doc_match_details doc !! k) →
            ∃ v, v ∈ retained doc ∧ k = pretty v).
Proof.
  eexists. split; [vm_compute; reflexivity|].
  apply (match_details_first_50 2024 "" (star_matches 51) sample_players []).
  vm_compute. reflexivity.
Defined.

(** C4, against the claim as stated: player 1 beats player 9, who is no key
    of [players_data] and so has no name; player 9 is a vertex of the merged
    graph and a direct opponent of player 1. *)
Lemma unnamed_player_in_graph :
  ¬ named sample_players 9
  ∧ ∃ g, merged_graph [row (Some 1) (Some 9) "Wimbledon" 2010]
                      sample_players [] = Some g
         ∧ is_Some (g !! 9)
         ∧ lists g DirectOpponents 1 9.
Proof.
  split.
  - intros (d & Hd & _). apply (list_elem_of_fmap_2 fst) in Hd.
    revert Hd. apply (bool_decide_unpack (9 ∉ sample_players.*1)).
    vm_compute. exact I.
  - eexists. split; [vm_compute; reflexivity|]. split.
    + eexists. vm_compute. reflexivity.
    + eexists. split; [vm_compute; reflexivity|].
      apply (bool_decide_unpack _). vm_compute. exact I.
Qed.

(** C4, as the code has it. A player id without a name, that is an id that
    is no key of [players_data] or whose dictionary has no 'name' key, never
    appears in a same_country, same_hand, similar_height or same_birth_year
    list of any vertex and is never a candidate; it is a vertex of the
    merged graph only when it is the winner or the loser of some match
    row. *)
Theorem unnamed_player_exclusion now_year now_iso matches pd gs u :
  ¬ named pd u →
  (∀ g v K, merged_graph matches pd gs = Some g →
            K ∈ [SameCountry; SameHand; SimilarHeight; SameBirthYear] →
            ¬ lists g K v u)
  ∧ (∀ g, merged_graph matches pd gs = Some g → is_Some (g !! u) →
          ∃ m, m ∈ matches ∧ appears_in m u)
  ∧ (∀ doc, main now_year now_iso matches pd gs = Written doc → u ∉ retained doc).
Proof.
  intros Hun. split_and!.
  - intros g v K (attr & Hattr & ->)%merged_graph_Some HK.
    rewrite lists_build. intros Hu. apply Hun.
    destruct (attribute_connections_sound pd attr v u Hattr)
      as (Hc & Hh & Hb & Hy).
    repeat (apply elem_of_cons in HK as [->|HK]);
      [..|by apply elem_of_nil in HK];
      cbn [neighbours connections_of same_country same_hand similar_height
           same_birth_year] in Hu.
    + by apply Hc, grouped_named in Hu.
    + by apply Hh, grouped_named in Hu.
    + by apply Hb, grouped_named in Hu.
    + by apply Hy, grouped_named in Hu.
  - intros g (attr & Hattr & ->)%merged_graph_Some [Hu|[Hu|Hu]]%vertex_origin.
    + by eapply h2h_dom_appears.
    + by apply (attribute_connections_dom_named pd attr u Hattr) in Hu.
    + destruct (tournament_connections_inv matches gs) as (tc & Ht & _ & _ & Hd).
      apply Hd. rewrite Ht in Hu. by rewrite !dom_fmap_L in Hu.
  - intros doc Hmain Hu.
    destruct (retained_popular _ _ _ _ _ _ u Hmain Hu) as (d & ? & ? & _).
    apply Hun. by exists d.
Qed.

Lemma unnamed_player_exclusion_witness :
  ¬ named sample_players 9
  ∧ ∀ g, merged_graph [row (Some 1) (Some 9) "Wimbledon" 2010]
                      sample_players [] = Some g →
         is_Some (g !! 9) →
         ∃ m, m ∈ [row (Some 1) (Some 9) "Wimbledon" 2010] ∧ appears_in m 9.
Proof.
  assert (¬ named sample_players 9) as Hun.
  { intros (d & Hd & _). apply (list_elem_of_fmap_2 fst) in Hd.
    revert Hd. apply (bool_decide_unpack (9 ∉ sample_players.*1)).
    vm_compute. exact I. }
  split; [exact Hun|].
  exact (proj1 (proj2 (unnamed_player_exclusion 2024 ""
           [row (Some 1) (Some 9) "Wimbledon" 2010] sample_players [] 9 Hun))).
Defined.

(** C5. The candidate list of the document is the first 800 entries of the
    ranked list of eligible players. The eligible players are the entries of
    [players_data] that have a name (a 'name' key, whatever it holds) and at
    least 8 direct opponents; they are ranked by the size of their set of
    direct opponents, largest first, and players with equal counts keep the
    order of [players_data]. *)
Theorem candidates_ranked now_year now_iso matches pd gs doc :
  main now_year now_iso matches pd gs = Written doc →
  let h2h := (extract_head_to_head_connections matches pd).1 in
  let eligible := omap (player_info h2h 8) pd in
  ∃ ranked,
    doc_players doc = take 800 ranked
    ∧ (length (doc_players doc) ≤ 800)%nat
    ∧ ranked ≡ₚ eligible
    ∧ StronglySorted (ge_key pi_connections) ranked
    ∧ (∀ n, filter (λ a, pi_connections a = n) ranked
            = filter (λ a, pi_connections a = n) eligible)
    ∧ (∀ p, p ∈ pi_id <$> ranked
            ↔ ∃ d, (p, d) ∈ pd ∧ has_name d
                   ∧ (8 ≤ size (opponents h2h p))%nat)
    ∧ (∀ a, a ∈ ranked → pi_connections a = size (opponents h2h (pi_id a))).
Proof.
  intros Hmain h2h eligible.
  destruct (main_Written _ _ _ _ _ _ Hmain) as (_ & Hp & _).
  exists (get_popular_players pd h2h 8). split_and!.
  - done.
  - rewrite Hp, length_take. lia.
  - apply sort_desc_perm.
  - apply sort_desc_sorted.
  - intros n. apply sort_desc_stable.
  - intros p. rewrite elem_of_popular_ids by done.
    split; intros (d & ? & ? & ?); exists d; split_and!; try done; lia.
  - intros a. apply popular_connections.
Qed.

Lemma candidates_ranked_witness :
  ∃ doc, main 2024 "" (star_matches 8) sample_players [] = Written doc
    ∧ ∃ ranked,
        doc_players doc = take 800 ranked
        ∧ (length (doc_players doc) ≤ 800)%nat
        ∧ ranked ≡ₚ omap (player_info
             (extract_head_to_head_connections (star_matches 8)
                sample_players).1 8) sample_players.
Proof.
  eexists. split; [vm_compute; reflexivity|].
  destruct (candidates_ranked 2024 "" (star_matches 8) sample_players [] _
              ltac:(vm_compute; reflexivity)) as (ranked & H1 & H2 & H3 & _).
  exists ranked. exact (conj H1 (conj H2 H3)).
Defined.

(** A ranking with ties: players 1 and 2 both have two direct opponents and
    keep the order of [players_data]; player 3 has three and comes first. *)
Example ranking_is_stable :
  pi_id <$> get_popular_players sample_players
              (extract_head_to_head_connections
                 [row (Some 1) (Some 2) "Paris" 2000;
                  row (Some 3) (Some 1) "Paris" 2000;
                  row (Some 3) (Some 2) "Paris" 2000;
                  row (Some 3) (Some 4) "Paris" 2000] sample_players).1 2
  = [3; 1; 2].
Proof. vm_compute. reflexivity. Qed.

(** A player whose 'name', 'country' and 'titles' keys hold [None] is
    ranked, and its record carries these values as they are; only the
    absent 'hand' key gets the default. *)
Example null_fields_are_kept :
  get_popular_players null_fields_players
    (extract_head_to_head_connections (star_matches 8)
       null_fields_players).1 8
  = [{| pi_id := 1; pi_name := VNone; pi_country := VNone;
        pi_hand := VStr ""; pi_height := VNone; pi_birth_year := VNone;
        pi_titles := VNone; pi_connections := 8 |}].
Proof. vm_compute. reflexivity. Qed.

(** C7, at the failing input: one row whose winner is its loser. Player 7
    then lists itself among its direct opponents, while the tournament
    extractor, fed the same row, gives it no neighbour. *)
Theorem self_match_makes_self_loop :
  ∃ g, merged_graph [self_row] sample_players [] = Some g
       ∧ lists g DirectOpponents 7 7
       ∧ ¬ lists g SameTournament 7 7.
Proof.
  destruct (merged_graph [self_row] sample_players []) as [g|] eqn:Hg;
    [|by vm_compute in Hg].
  exists g. split; [done|].
  apply merged_graph_Some in Hg as (attr & Hattr & ->).
  rewrite !lists_build.
  assert (attr = default ∅ (extract_attribute_connections sample_players))
    as -> by by rewrite Hattr.
  split.
  - apply (bool_decide_unpack _). vm_compute. exact I.
  - apply (bool_decide_unpack
             (7 ∉ neighbours SameTournament
                    (connections_of
                       (extract_head_to_head_connections [self_row]
                          sample_players).1
                       (default ∅
                          (extract_attribute_connections sample_players))
                       (extract_tournament_connections [self_row] []) 7))).
    vm_compute. exact I.
Qed.

(** Away from the direct opponents no vertex lists itself, and a vertex
    lists itself as a direct opponent only through a row whose winner is its
    loser. *)
Lemma self_loop_origin matches pd gs g K u :
  merged_graph matches pd gs = Some g →
  lists g K u u →
  K = DirectOpponents ∧ ∃ m, m ∈ matches ∧ self_match m u.
Proof.
  intros (attr & Hattr & ->)%merged_graph_Some. rewrite lists_build.
  destruct (attribute_connections_sound pd attr u u Hattr)
    as (Hc & Hh & Hb & Hy).
  destruct K; cbn [neighbours connections_of direct_opponents same_country
                   same_hand similar_height same_birth_year same_tournament];
    intros Hu.
  - split; [done|]. apply elem_of_elements in Hu.
    exact (h2h_self_loop_origin matches pd u Hu).
  - apply Hc in Hu. by destruct Hu.
  - apply Hh in Hu. by destruct Hu.
  - apply Hb in Hu. by destruct Hu.
  - apply Hy in Hu. by destruct Hu.
  - destruct (tournament_connections_inv matches gs) as (tc & Ht & _ & Hirr & _).
    rewrite Ht, get2_tournament_connections in Hu. by apply Hirr in Hu.
Qed.

(** C10, against the claim as stated, at three inputs. With usable match
    rows and one named player whose height holds NaN, the pipeline neither
    returns early nor runs to completion: an exception ends it before the
    document is written. With a table whose only row lacks its winner id, so
    that no row has both ids, it does not abort: it writes a document. And
    a row without winner id is not skipped by the tournament extractor: with
    it, its loser 5 is a same_tournament neighbour of player 1; without it,
    it is not. *)
Lemma pipeline_raises_and_half_row_counts :
  main 2024 "" sample_matches nan_height_players [] = Raised
  ∧ (∃ doc, main 2024 "" [half_row] sample_players [] = Written doc)
  ∧ m_winner_id half_row = None
  ∧ (∃ g, merged_graph [row (Some 1) (Some 2) "Wimbledon" 2010; half_row]
            sample_players [] = Some g
          ∧ lists g SameTournament 1 5)
  ∧ (∃ g, merged_graph [row (Some 1) (Some 2) "Wimbledon" 2010]
            sample_players [] = Some g
          ∧ ¬ lists g SameTournament 1 5).
Proof.
  split; [vm_compute; reflexivity|].
  split; [eexists; vm_compute; reflexivity|].
  split; [reflexivity|]. split.
  - eexists. split; [vm_compute; reflexivity|].
    eexists. split; [vm_compute; reflexivity|].
    apply (bool_decide_unpack _). vm_compute. exact I.
  - eexists. split; [vm_compute; reflexivity|].
    intros (c & Hc & Hin). vm_compute in Hc. injection Hc as <-.
    revert Hin. apply (bool_decide_unpack (5 ∉ [2])). vm_compute. exact I.
Qed.

(** C10, as the code has it. [main] returns before writing anything exactly
    when the match table has no row. For a table with a row, it writes the
    document whenever every true height of a named player is a number, so
    that the attribute extractor raises no exception. A row without winner
    id or without loser id is skipped by the head-to-head extractor: the
    direct opponents and the match details are those of the table without
    the row. *)
Theorem abort_and_skip now_year now_iso pre m post pd gs :
  m_winner_id m = None ∨ m_loser_id m = None →
  heights_numeric pd →
  (∀ matches, main now_year now_iso matches pd gs = Aborted ↔ matches = [])
  ∧ (∀ matches, matches ≠ [] →
                ∃ doc, main now_year now_iso matches pd gs = Written doc)
  ∧ extract_head_to_head_connections (pre ++ m :: post) pd
    = extract_head_to_head_connections (pre ++ post) pd.
Proof.
  intros Hm Hnum. split_and!.
  - intros matches. apply main_Aborted.
  - intros matches Hne. apply main_writes; [done|].
    by apply heights_numeric_is_Some.
  - unfold extract_head_to_head_connections.
    rewrite !foldl_app. cbn [foldl]. by rewrite h2h_step_skip.
Qed.

Lemma abort_and_skip_witness :
  (m_winner_id half_row = None ∨ m_loser_id half_row = None)
  ∧ heights_numeric sample_players
  ∧ (∃ doc, main 2024 "" (sample_matches ++ half_row :: []) sample_players []
            = Written doc)
  ∧ extract_head_to_head_connections (sample_matches ++ half_row :: [])
      sample_players
    = extract_head_to_head_connections (sample_matches ++ []) sample_players.
Proof.
  assert (m_winner_id half_row = None ∨ m_loser_id half_row = None) as Hm
    by (left; reflexivity).
  assert (heights_numeric sample_players) as Hnum.
  { intros p d h Hin _ Hh.
    repeat (apply elem_of_cons in Hin as [[= -> ->]|Hin]);
      [..|by apply elem_of_nil in Hin];
      vm_compute in Hh; first [by injection Hh as <-; eexists | done]. }
  split; [exact Hm|]. split; [exact Hnum|].
  destruct (abort_and_skip 2024 "" sample_matches half_row []
              sample_players [] Hm Hnum) as (_ & Hw & Hskip).
  split; [|exact Hskip]. apply Hw. discriminate.
Defined.

(** * Further properties *)

(** ** Head-to-Head extractor *)

Lemma h2h_step_opponents st m u v :
  v ∈ opponents (h2h_step st m).1 u ↔ v ∈ opponents st.1 u ∨ met m u v.
Proof.
  unfold h2h_step, met.
  destruct (m_winner_id m) as [w|]; [|by intuition congruence].
  destruct (m_loser_id m) as [l|]; [|by intuition congruence].
  simpl. rewrite !opponents_dd_add.
  repeat destruct (decide _) as [?|?]; subst;
    rewrite ?elem_of_union, ?elem_of_singleton;
    intuition (subst; first [congruence | by auto]).
Qed.

Lemma h2h_fold_opponents matches st u v :
  v ∈ opponents (foldl h2h_step st matches).1 u
  ↔ v ∈ opponents st.1 u ∨ ∃ m, m ∈ matches ∧ met m u v.
Proof.
  revert st. induction matches as [|m matches IH]; intros st; cbn [foldl].
  - split; [by left|]. intros [?|(m & ?%elem_of_nil & _)]; done.
  - rewrite IH, h2h_step_opponents. split.
    + intros [[?|?]|(m' & ? & ?)].
      * by left.
      * right. exists m. split; [by left | done].
      * right. exists m'. split; [by right | done].
    + intros [?|(m' & [->|?]%elem_of_cons & ?)].
      * by left; left.
      * by left; right.
      * right. by exists m'.
Qed.

Lemma h2h_opponents_met matches pd u v :
  v ∈ opponents (extract_head_to_head_connections matches pd).1 u
  ↔ ∃ m, m ∈ matches ∧ met m u v.
Proof.
  unfold extract_head_to_head_connections. rewrite h2h_fold_opponents.
  unfold opponents at 1. cbn [fst]. rewrite lookup_empty.
  split; [intros [?%elem_of_empty|?]; done | by right].
Qed.

Lemma h2h_dom_nonempty matches pd u :
  u ∈ dom (extract_head_to_head_connections matches pd).1 →
  ∃ v, v ∈ opponents (extract_head_to_head_connections matches pd).1 u.
Proof.
  unfold extract_head_to_head_connections. revert u.
  apply (foldl_invariant (λ st, ∀ u, u ∈ dom st.1 → ∃ v, v ∈ opponents st.1 u)).
  - intros u. cbn [fst]. rewrite dom_empty_L. by intros ?%elem_of_empty.
  - intros st m _ IH u Hu.
    assert (u ∈ dom st.1 ∨ ∃ v, met m u v) as [Hold|[v Hv]].
    { revert Hu. unfold h2h_step, met.
      destruct (m_winner_id m) as [w|]; [|by left].
      destruct (m_loser_id m) as [l|]; [|by left].
      cbn [fst]. rewrite !dd_add_dom.
      intros [->%elem_of_singleton|[->%elem_of_singleton|?]%elem_of_union]%elem_of_union;
        [right; exists w; by right | right; exists l; by left | by left]. }
    + destruct (IH u Hold) as [v Hv]. exists v.
      apply h2h_step_opponents. by left.
    + exists v. apply h2h_step_opponents. by right.
Qed.

Lemma size_list_to_set_le (l : list Z) :
  (size (list_to_set l : gset Z) ≤ length l)%nat.
Proof.
  induction l as [|x l IH]; [by rewrite list_to_set_nil, size_empty|].
  rewrite list_to_set_cons, size_union_alt, size_singleton. simpl.
  assert (size (list_to_set l ∖ {[x]} : gset Z)
          ≤ size (list_to_set l : gset Z))%nat
    by (apply subseteq_size; intros y [? _]%elem_of_difference; done).
  lia.
Qed.

(** X1. The direct opponents of [u] are exactly the players [u] met in a
    row with both ids recorded, as winner or as loser; the keys of
    [h2h_connections] are exactly the players of such rows, so no key has an
    empty set. *)
Theorem direct_opponents_are_players_met matches pd u :
  (∀ v, v ∈ opponents (extract_head_to_head_connections matches pd).1 u
        ↔ ∃ m, m ∈ matches ∧ met m u v)
  ∧ (u ∈ dom (extract_head_to_head_connections matches pd).1
     ↔ ∃ m v, m ∈ matches ∧ met m u v).
Proof.
  split; [intros v; apply h2h_opponents_met|]. split.
  - intros [v (m & ? & ?)%h2h_opponents_met]%h2h_dom_nonempty. by exists m, v.
  - intros (m & v & Hm & Hmet). eapply opponents_elem_dom.
    apply h2h_opponents_met. by exists m.
Qed.

Lemma row_details_opponent v m x :
  x ∈ mi_opponent_id <$> row_details v m ↔ met m v x.
Proof.
  unfold row_details, met.
  destruct (m_winner_id m) as [w|];
    [|rewrite fmap_nil, elem_of_nil; by intuition congruence].
  destruct (m_loser_id m) as [l|];
    [|rewrite fmap_nil, elem_of_nil; by intuition congruence].
  rewrite fmap_app, elem_of_app.
  destruct (decide (w = v)) as [->|?], (decide (l = v)) as [->|?];
    cbn [fmap list_fmap mi_opponent_id match_info_of match_info_loser_of];
    rewrite ?list_elem_of_singleton, ?elem_of_nil;
    intuition (subst; first [congruence | by auto]).
Qed.

Lemma row_details_result v m info :
  info ∈ row_details v m → mi_result info = "W" ∨ mi_result info = "L".
Proof.
  unfold row_details.
  destruct (m_winner_id m) as [w|]; [|by intros ?%elem_of_nil].
  destruct (m_loser_id m) as [l|]; [|by intros ?%elem_of_nil].
  intros [Hin|Hin]%elem_of_app; destruct (decide _);
    try (by apply elem_of_nil in Hin);
    apply list_elem_of_singleton in Hin as ->; auto.
Qed.

(** X2. The two results of the head-to-head extractor agree: a player has
    match details exactly when it has direct opponents, the opponent ids of
    its match details are exactly its direct opponents, so it has at least
    as many details as opponents, and every detail is a win or a loss. *)
Theorem match_details_match_opponents matches pd v :
  let h2h := (extract_head_to_head_connections matches pd).1 in
  let details := details_of (extract_head_to_head_connections matches pd).2 v in
  (v ∈ dom (extract_head_to_head_connections matches pd).2 ↔ v ∈ dom h2h)
  ∧ list_to_set (mi_opponent_id <$> details) = opponents h2h v
  ∧ (size (opponents h2h v) ≤ length details)%nat
  ∧ (∀ info, info ∈ details → mi_result info = "W" ∨ mi_result info = "L").
Proof.
  intros h2h details.
  assert (list_to_set (mi_opponent_id <$> details) = opponents h2h v) as Hset.
  { apply set_eq. intros x. rewrite elem_of_list_to_set.
    unfold h2h. rewrite h2h_opponents_met.
    unfold details, details_of. rewrite match_details_in_order.
    rewrite list_elem_of_fmap. split.
    - intros (info & -> & Hin). apply list_elem_of_join in Hin as (l & Hin & Hl).
      apply list_elem_of_fmap in Hl as (m & -> & Hm). exists m. split; [done|].
      apply row_details_opponent, list_elem_of_fmap. by exists info.
    - intros (m & Hm & Hmet). apply row_details_opponent in Hmet.
      apply list_elem_of_fmap in Hmet as (info & -> & Hin). exists info.
      split; [done|]. apply list_elem_of_join. exists (row_details v m).
      split; [done|]. apply list_elem_of_fmap. by exists m. }
  split_and!.
  - by rewrite h2h_dom_details.
  - done.
  - rewrite <- Hset, <- (length_fmap mi_opponent_id details).
    apply size_list_to_set_le.
  - intros info Hin. unfold details, details_of in Hin.
    rewrite match_details_in_order in Hin.
    apply list_elem_of_join in Hin as (l & Hin & Hl).
    apply list_elem_of_fmap in Hl as (m & -> & Hm).
    by eapply row_details_result.
Qed.

(** X3. The head-to-head extractor works row by row: over two tables put
    end to end, the direct opponents of a player are the union of its
    opponents over each table and its match details are those of the first
    table followed by those of the second. *)
Theorem h2h_of_concatenation matches1 matches2 pd v :
  opponents (extract_head_to_head_connections (matches1 ++ matches2) pd).1 v
  = opponents (extract_head_to_head_connections matches1 pd).1 v
    ∪ opponents (extract_head_to_head_connections matches2 pd).1 v
  ∧ details_of (extract_head_to_head_connections (matches1 ++ matches2) pd).2 v
    = details_of (extract_head_to_head_connections matches1 pd).2 v
      ++ details_of (extract_head_to_head_connections matches2 pd).2 v.
Proof.
  split.
  - apply set_eq. intros x.
    rewrite elem_of_union, !h2h_opponents_met. split.
    + intros (m & [?|?]%elem_of_app & ?); [left | right]; by exists m.
    + intros [(m & ? & ?)|(m & ? & ?)]; exists m;
        (split; [apply elem_of_app; auto | done]).
  - unfold details_of. rewrite !match_details_in_order.
    by rewrite fmap_app, join_app.
Qed.

(** ** Tournament-Co-Participation extractor *)

Lemma foldl_preserve {A B} (P : A → Prop) (f : A → B → A) (l : list B) (a : A) :
  (∀ a x, P a → P (f a x)) → P a → P (foldl f a l).
Proof. intros Hf Ha. apply foldl_invariant; [done|]. intros; by apply Hf. Qed.

Lemma foldl_establish {A B} (P : A → Prop) (f : A → B → A) (l : list B)
    (a : A) (x : B) :
  (∀ a, P (f a x)) → (∀ a y, P a → P (f a y)) → x ∈ l → P (foldl f a l).
Proof.
  intros Hx Hf. revert a. induction l as [|y l IH]; intros a Hin;
    [by apply elem_of_nil in Hin|]. cbn [foldl].
  apply elem_of_cons in Hin as [<-|Hin]; [|by apply IH].
  by apply foldl_preserve.
Qed.

Lemma for_pairs_preserve {A S} (P : S → Prop) (body : S → A → A → S)
    (l : list A) (st : S) :
  (∀ st a b, P st → P (body st a b)) → P st → P (for_pairs body l st).
Proof.
  intros Hb. revert st. induction l as [|x l IH]; intros st Hst; simpl; [done|].
  apply IH. apply foldl_preserve; [|done]. intros; by apply Hb.
Qed.

Lemma for_pairs_connects l tc a b :
  a ∈ l → b ∈ l → a ≠ b →
  b ∈ tournament_set (for_pairs connect_pair l tc) a.
Proof.
  assert (∀ tc p1 p2, b ∈ tournament_set tc a →
                      b ∈ tournament_set (connect_pair tc p1 p2) a) as Hkeep.
  { intros tc' p1 p2 ?. apply tournament_set_connect_pair. by left. }
  revert tc. induction l as [|x l IH]; intros tc Ha Hb Hne;
    [by apply elem_of_nil in Ha|]. simpl.
  apply elem_of_cons in Ha as [->|Ha], Hb as [->|Hb]; [done| | |by apply IH].
  - apply (for_pairs_preserve (λ tc, b ∈ tournament_set tc x));
      [by intros; apply Hkeep|].
    apply (foldl_establish (λ tc, b ∈ tournament_set tc x) _ _ _ b);
      [|by intros; apply Hkeep|done].
    intros tc'. apply tournament_set_connect_pair. auto.
  - apply (for_pairs_preserve (λ tc, x ∈ tournament_set tc a));
      [by intros; apply Hkeep|].
    apply (foldl_establish (λ tc, x ∈ tournament_set tc a) _ _ _ a);
      [|by intros; apply Hkeep|done].
    intros tc'. apply tournament_set_connect_pair. auto.
Qed.

Lemma connect_tournaments_char tp u v :
  v ∈ tournament_set (connect_tournaments tp ∅) u
  ↔ u ≠ v ∧ ∃ k s, tp !! k = Some s ∧ u ∈ s ∧ v ∈ s.
Proof.
  split.
  - revert u v. apply (connect_tournaments_invariant (λ tc, ∀ u v,
      v ∈ tournament_set tc u → u ≠ v ∧ ∃ k s, tp !! k = Some s ∧ u ∈ s ∧ v ∈ s)).
    + intros u v. unfold tournament_set. rewrite lookup_empty. cbn [default].
      rewrite lookup_empty. by intros ?%elem_of_empty.
    + intros tc k s p1 p2 Hs Hp1 Hp2 Hne IH u v.
      rewrite tournament_set_connect_pair.
      intros [?|[[-> ->]|[-> ->]]]; [by apply IH | |];
        (split; [done|]; by exists k, s).
  - intros (Hne & k & s & Hs%elem_of_map_to_list & Hu & Hv).
    unfold connect_tournaments.
    apply (foldl_establish (λ tc, v ∈ tournament_set tc u) _ _ _ (k, s));
      [| |done].
    + intros tc. cbn [snd]. apply for_pairs_connects; by rewrite ?elem_of_elements.
    + intros tc item Hin.
      apply (for_pairs_preserve (λ tc, v ∈ tournament_set tc u)); [|done].
      intros tc' p1 p2 ?. apply tournament_set_connect_pair. by left.
Qed.

Lemma tournament_players_step_char tp m k p :
  p ∈ default ∅ (tournament_players_step tp m !! k)
  ↔ p ∈ default ∅ (tp !! k) ∨ plays_in m k p.
Proof.
  unfold tournament_players_step, plays_in, tournament_key_of, appears_in.
  destruct (truthy_cell _ && truthy_int _); [|by intuition congruence].
  set (key := cell_str _ +:+ _).
  destruct (m_winner_id m) as [w|], (m_loser_id m) as [l|];
    rewrite ?dd_add_lookup;
    repeat destruct (decide _) as [?|?]; subst;
    rewrite ?dd_add_lookup, ?elem_of_union, ?elem_of_singleton;
    repeat destruct (decide _) as [?|?]; subst;
    rewrite ?elem_of_union, ?elem_of_singleton;
    intuition (subst; first [congruence | by auto]).
Qed.

Lemma tournament_players_char matches k p :
  p ∈ default ∅ (foldl tournament_players_step ∅ matches !! k)
  ↔ ∃ m, m ∈ matches ∧ plays_in m k p.
Proof.
  assert (∀ tp, p ∈ default ∅ (foldl tournament_players_step tp matches !! k)
    ↔ p ∈ default ∅ (tp !! k) ∨ ∃ m, m ∈ matches ∧ plays_in m k p) as Hgen.
  { induction matches as [|m matches IH]; intros tp; cbn [foldl].
    - split; [by left|]. intros [?|(m & ?%elem_of_nil & _)]; done.
    - rewrite IH, tournament_players_step_char. split.
      + intros [[?|?]|(m' & ? & ?)].
        * by left.
        * right. exists m. split; [by left | done].
        * right. exists m'. split; [by right | done].
      + intros [?|(m' & [->|?]%elem_of_cons & ?)].
        * by left; left.
        * by left; right.
        * right. by exists m'. }
  rewrite Hgen, lookup_empty. cbn [default].
  split; [intros [?%elem_of_empty|?]; done | by right].
Qed.

Lemma same_tournament_char matches gs u v :
  v ∈ get2 (extract_tournament_connections matches gs) u "same_tournament"
  ↔ co_participants matches u v.
Proof.
  unfold extract_tournament_connections. rewrite connect_finalists_pass.
  rewrite get2_tournament_connections, connect_tournaments_char.
  unfold co_participants. split.
  - intros (Hne & k & s & Hs & Hu & Hv). split; [done|].
    assert (∀ p, p ∈ s → ∃ m, m ∈ matches ∧ plays_in m k p) as Hp.
    { intros p Hin. apply tournament_players_char. by rewrite Hs. }
    destruct (Hp u Hu) as (m1 & ? & ?), (Hp v Hv) as (m2 & ? & ?).
    by exists k, m1, m2.
  - intros (Hne & k & m1 & m2 & Hm1 & Hm2 & Hu & Hv). split; [done|].
    assert (u ∈ default ∅ (foldl tournament_players_step ∅ matches !! k)) as Hus
      by (apply tournament_players_char; by exists m1).
    assert (v ∈ default ∅ (foldl tournament_players_step ∅ matches !! k)) as Hvs
      by (apply tournament_players_char; by exists m2).
    destruct (foldl tournament_players_step ∅ matches !! k) as [s|] eqn:Hs;
      [|by apply elem_of_empty in Hus].
    exists k, s. split_and!; [exact Hs | exact Hus | exact Hvs].
Qed.

(** X4. Two players are same_tournament neighbours exactly when they are
    distinct and each is the winner or the loser of some row of one
    tournament key, the key being formed from a true tournament name and a
    true year. A row with an empty tournament name or year 0 contributes
    nothing, a row with a single recorded id contributes that id. *)
Theorem same_tournament_are_co_participants matches pd gs u v :
  (v ∈ get2 (extract_tournament_connections matches gs) u "same_tournament"
   ↔ co_participants matches u v)
  ∧ (∀ g, merged_graph matches pd gs = Some g →
          (lists g SameTournament u v ↔ co_participants matches u v)).
Proof.
  split; [apply same_tournament_char|].
  intros g (attr & _ & ->)%merged_graph_Some.
  rewrite lists_build. apply same_tournament_char.
Qed.

Lemma same_tournament_are_co_participants_witness :
  ∃ g, merged_graph sample_matches sample_players [] = Some g
       ∧ (lists g SameTournament 1 3 ↔ co_participants sample_matches 1 3).
Proof.
  eexists. split; [vm_compute; reflexivity|].
  apply (proj2 (same_tournament_are_co_participants sample_matches
                  sample_players [] 1 3)).
  vm_compute. reflexivity.
Defined.

(** X5. When every row has a true tournament name and a true year, a
    direct opponent other than the player itself is also a same_tournament
    neighbour. *)
Theorem direct_opponents_share_tournament matches pd gs g u v :
  (∀ m, m ∈ matches → is_Some (tournament_key_of m)) →
  u ≠ v →
  merged_graph matches pd gs = Some g →
  lists g DirectOpponents u v →
  lists g SameTournament u v.
Proof.
  intros Hkey Hne (attr & _ & ->)%merged_graph_Some. rewrite !lists_build.
  cbn [neighbours connections_of direct_opponents same_tournament].
  rewrite elem_of_elements, same_tournament_char.
  intros (m & Hm & Hmet)%h2h_opponents_met.
  destruct (Hkey m Hm) as [k Hk]. split; [done|].
  exists k, m, m. unfold plays_in, appears_in.
  destruct Hmet as [[? ?]|[? ?]]; split_and!; auto.
Qed.

Lemma direct_opponents_share_tournament_witness :
  (∀ m, m ∈ sample_matches → is_Some (tournament_key_of m))
  ∧ 1 ≠ 3
  ∧ ∃ g, merged_graph sample_matches sample_players [] = Some g
         ∧ lists g DirectOpponents 1 3
         ∧ lists g SameTournament 1 3.
Proof.
  assert (∀ m, m ∈ sample_matches → is_Some (tournament_key_of m)) as Hkey.
  { apply Forall_forall. repeat constructor; by eexists. }
  split; [exact Hkey|]. split; [done|].
  eexists. split; [vm_compute; reflexivity|].
  assert (merged_graph sample_matches sample_players []
          = Some (default ∅ (merged_graph sample_matches sample_players [])))
    as Hg by (vm_compute; reflexivity).
  assert (lists (default ∅ (merged_graph sample_matches sample_players []))
            DirectOpponents 1 3) as Hd.
  { eexists. split; [vm_compute; reflexivity|].
    apply (bool_decide_unpack _). vm_compute. exact I. }
  split.
  - eexists. split; [vm_compute; reflexivity|].
    apply (bool_decide_unpack _). vm_compute. exact I.
  - pose proof (direct_opponents_share_tournament sample_matches sample_players
                  [] _ 1 3 Hkey ltac:(done) Hg Hd) as Hs.
    destruct Hs as (c & Hc & Hin). exists c. split; [|exact Hin].
    rewrite <- Hc. vm_compute. reflexivity.
Defined.

(** ** Attribute-Group extractor: the lists themselves *)

Lemma NoDup_fst_filter {A B} (P : A * B → Prop) `{∀ x, Decision (P x)}
    (l : list (A * B)) :
  NoDup l.*1 → NoDup (filter P l).*1.
Proof.
  intros Hnd. apply (sublist_NoDup _ l.*1); [done|].
  apply fmap_sublist, sublist_filter.
Qed.



Section exact.
Context `{Countable K} (key : PlayerData → option K) (kind : string).
Context (pd : list (Z * PlayerData)).


Lemma connect_groups_NoDup ac :
  NoDup pd.*1 →
  (∀ u kind', NoDup (get2 ac u kind')) →
  ∀ u kind', NoDup (get2 (connect_groups kind (groups_of key pd) ac) u kind').
Proof.
  intros Hnd Hac.
  apply (connect_groups_invariant kind (groups_of key pd)
           (λ ac', ∀ u kind', NoDup (get2 ac' u kind'))); [done|].
  intros ac' k ps Hps IH u kind'. rewrite connect_group_get2.
  destruct (decide _); [|by apply IH].
  apply group_members in Hps as ->. unfold others.
  apply NoDup_filter. by do 2 apply NoDup_fst_filter.
Qed.

Lemma connect_groups_has_neighbour ac :
  NoDup pd.*1 →
  (∀ u, u ∈ dom ac → ∃ kind' x, x ∈ get2 ac u kind') →
  ∀ u, u ∈ dom (connect_groups kind (groups_of key pd) ac) →
       ∃ kind' x, x ∈ get2 (connect_groups kind (groups_of key pd) ac) u kind'.
Proof.
  intros Hnd Hac.
  apply (connect_groups_invariant kind (groups_of key pd)
           (λ ac', ∀ u, u ∈ dom ac' → ∃ kind' x, x ∈ get2 ac' u kind')); [done|].
  intros ac' k ps Hps IH u Hu.
  assert (NoDup ps) as Hps_nd.
  { apply group_members in Hps as ->. by do 2 apply NoDup_fst_filter. }
  assert (u ∈ ps → (1 < length ps)%nat → ∃ x, x ∈ others ps u) as Hother.
  { intros Hin Hlen. destruct ps as [|a [|b ps']]; simpl in Hlen; [lia..|].
    apply NoDup_cons in Hps_nd as [Hab _].
    destruct (decide (a = u)) as [->|Ha].
    - exists b. apply elem_of_others. split; [|by right; left].
      intros ->. apply Hab. by left.
    - exists a. apply elem_of_others. split; [done | by left]. }
  destruct (decide (u ∈ ps ∧ (1 < length ps)%nat)) as [[Hin Hlen]|Hn].
  - destruct (Hother Hin Hlen) as [x Hx]. exists kind, x.
    rewrite connect_group_get2. by rewrite decide_True.
  - assert (u ∈ dom ac') as Hold.
    { destruct (decide (1 < length ps)%nat) as [Hlen|Hlen].
      - apply connect_group_dom in Hu as [?|Hin]; [done | tauto].
      - unfold connect_group in Hu.
        by rewrite bool_decide_eq_false_2 in Hu. }
    destruct (IH u Hold) as (kind' & x & Hx). exists kind', x.
    rewrite connect_group_get2. rewrite decide_False; [done | tauto].
Qed.
End exact.

Lemma attribute_connections_NoDup pd attr u kind :
  extract_attribute_connections pd = Some attr →
  NoDup pd.*1 → NoDup (get2 attr u kind).
Proof.
  intros ->%extract_attribute_connections_Some Hnd. revert u kind.
  do 4 (apply connect_groups_NoDup; [done|]).
  intros u kind. rewrite get2_empty. constructor.
Qed.

Lemma attribute_connections_has_neighbour pd attr u :
  extract_attribute_connections pd = Some attr →
  NoDup pd.*1 → u ∈ dom attr → ∃ kind x, x ∈ get2 attr u kind.
Proof.
  intros ->%extract_attribute_connections_Some Hnd. revert u.
  do 4 (apply connect_groups_has_neighbour; [done|]).
  intros u. rewrite dom_empty_L. by intros ?%elem_of_empty.
Qed.

Lemma attribute_connections_kinds pd attr u kind x :
  extract_attribute_connections pd = Some attr →
  x ∈ get2 attr u kind →
  kind ∈ ["same_country"; "same_hand"; "similar_height"; "same_birth_year"].
Proof.
  intros ->%extract_attribute_connections_Some Hx.
  destruct (decide (kind ∈ ["same_country"; "same_hand"; "similar_height";
                            "same_birth_year"])) as [|Hk]; [done|].
  exfalso. revert Hx.
  rewrite !connect_groups_other, get2_empty; [by intros ?%elem_of_nil|..];
    intros <-; apply Hk; repeat constructor.
Qed.



(** ** Vertices of the merged graph *)

Lemma tournament_connections_has_neighbour matches gs u :
  u ∈ dom (extract_tournament_connections matches gs) →
  ∃ x, x ∈ get2 (extract_tournament_connections matches gs) u "same_tournament".
Proof.
  assert (∃ tc : gmap Z (gmap string (gset Z)),
    extract_tournament_connections matches gs
    = fmap (M := gmap Z) (fmap (M := gmap string) elements) tc
    ∧ ∀ u, u ∈ dom tc → ∃ x, x ∈ tournament_set tc u) as (tc & -> & Htc).
  { unfold extract_tournament_connections. rewrite connect_finalists_pass.
    eexists. split; [reflexivity|].
    apply (connect_tournaments_invariant
             (λ tc, ∀ u, u ∈ dom tc → ∃ x, x ∈ tournament_set tc u)).
    - intros u'. rewrite dom_empty_L. by intros ?%elem_of_empty.
    - intros tc k s p1 p2 _ _ _ _ IH u'. rewrite dom_connect_pair.
      intros [->%elem_of_singleton|[->%elem_of_singleton|Hold]%elem_of_union]%elem_of_union.
      + exists p1. apply tournament_set_connect_pair. auto.
      + exists p2. apply tournament_set_connect_pair. auto.
      + destruct (IH u' Hold) as [x Hx]. exists x.
        apply tournament_set_connect_pair. by left. }
  rewrite dom_fmap_L. intros [x Hx]%Htc. exists x.
  by apply get2_tournament_connections.
Qed.

Lemma tournament_connections_NoDup matches gs u kind :
  NoDup (get2 (extract_tournament_connections matches gs) u kind).
Proof.
  destruct (tournament_connections_inv matches gs) as (tc & -> & _).
  unfold get2. rewrite lookup_fmap.
  destruct (tc !! u) as [inner|]; simpl.
  - rewrite lookup_fmap. destruct (inner !! kind); simpl;
      [apply NoDup_elements | constructor].
  - rewrite lookup_empty. constructor.
Qed.

Lemma neighbours_NoDup matches pd attr gs K v :
  extract_attribute_connections pd = Some attr →
  NoDup pd.*1 →
  NoDup (neighbours K
           (connections_of (extract_head_to_head_connections matches pd).1
              attr (extract_tournament_connections matches gs) v)).
Proof.
  intros Hattr Hnd.
  destruct K; cbn [neighbours connections_of direct_opponents same_country
                   same_hand similar_height same_birth_year same_tournament].
  - apply NoDup_elements.
  - by eapply attribute_connections_NoDup.
  - by eapply attribute_connections_NoDup.
  - by eapply attribute_connections_NoDup.
  - by eapply attribute_connections_NoDup.
  - apply tournament_connections_NoDup.
Qed.

Lemma total_connections_elem h2h attr tour v K x :
  x ∈ neighbours K (connections_of h2h attr tour v) →
  ∃ U : gset Z,
    total_connections (connections_of h2h attr tour v) = size U
    ∧ list_to_set (neighbours K (connections_of h2h attr tour v)) ⊆ U.
Proof.
  intros _. eexists. split; [reflexivity|].
  cbn [foldl]. intros y Hy.
  destruct K; cbn [neighbours connections_of direct_opponents same_country
                   same_hand similar_height same_birth_year same_tournament] in Hy;
    rewrite !elem_of_union; tauto.
Qed.

(** X7. With distinct keys in [players_data], no vertex of the merged graph
    is isolated and no neighbour list repeats an id: [total_connections] is
    at least 1 and at least the length of each of the six lists. *)
Theorem vertices_have_neighbours matches pd gs g v c :
  NoDup pd.*1 →
  merged_graph matches pd gs = Some g →
  g !! v = Some c →
  (1 ≤ total_connections c)%nat
  ∧ ∀ K, NoDup (neighbours K c)
         ∧ (length (neighbours K c) ≤ total_connections c)%nat.
Proof.
  intros Hnd (attr & Hattr & ->)%merged_graph_Some Hv.
  assert (v ∈ dom (extract_head_to_head_connections matches pd).1
          ∨ v ∈ dom attr
          ∨ v ∈ dom (extract_tournament_connections matches gs)) as Horigin
    by (apply vertex_origin; by eexists).
  rewrite build_connection_graph_lookup in Hv.
  destruct (decide _); [|done]. injection Hv as <-.
  assert (∀ K x,
    x ∈ neighbours K
          (connections_of (extract_head_to_head_connections matches pd).1
             attr (extract_tournament_connections matches gs) v) →
    (1 ≤ total_connections
           (connections_of (extract_head_to_head_connections matches pd).1
              attr (extract_tournament_connections matches gs) v))%nat) as Hpos.
  { intros K x Hx. destruct (total_connections_elem _ _ _ _ _ _ Hx) as (U & -> & HU).
    assert (x ∈ U) as HxU by (apply HU; by apply elem_of_list_to_set).
    destruct (decide (size U = 0%nat)) as [Hz|]; [|lia].
    apply size_empty_inv in Hz. by apply Hz in HxU. }
  split.
  - destruct Horigin as [Hh|[Ha|Ht]].
    + apply h2h_dom_nonempty in Hh as [x Hx].
      apply (Hpos DirectOpponents x).
      cbn [neighbours connections_of direct_opponents].
      by apply elem_of_elements.
    + apply (attribute_connections_has_neighbour pd attr v Hattr Hnd) in Ha
        as (kind & x & Hx).
      pose proof (attribute_connections_kinds _ _ _ _ _ Hattr Hx) as Hk.
      repeat (apply elem_of_cons in Hk as [->|Hk]);
        [by apply (Hpos SameCountry x) | by apply (Hpos SameHand x)
        | by apply (Hpos SimilarHeight x) | by apply (Hpos SameBirthYear x)
        | by apply elem_of_nil in Hk].
    + apply tournament_connections_has_neighbour in Ht as [x Hx].
      by apply (Hpos SameTournament x).
  - intros K. pose proof (neighbours_NoDup matches pd attr gs K v Hattr Hnd) as HK.
    split; [done|].
    destruct (neighbours K _) as [|x l] eqn:Hl; [simpl; lia|].
    destruct (total_connections_elem
                (extract_head_to_head_connections matches pd).1
                attr
                (extract_tournament_connections matches gs) v K x)
      as (U & -> & HU); [rewrite Hl; by left|].
    rewrite Hl in HU. rewrite <- (size_list_to_set (C := gset Z)) by done.
    by apply subseteq_size.
Qed.

Lemma vertices_have_neighbours_witness :
  NoDup sample_players.*1
  ∧ ∃ g c, merged_graph sample_matches sample_players [] = Some g
           ∧ g !! 4 = Some c
           ∧ (1 ≤ total_connections c)%nat.
Proof.
  assert (NoDup sample_players.*1) as Hnd.
  { apply (bool_decide_unpack _). vm_compute. exact I. }
  split; [exact Hnd|]. eexists _, _. split; [vm_compute; reflexivity|].
  split; [vm_compute; reflexivity|].
  refine (proj1 (vertices_have_neighbours sample_matches sample_players []
                   _ 4 _ Hnd _ _)).
  - vm_compute. reflexivity.
  - vm_compute. reflexivity.
Defined.

(** ** Popular players *)

Lemma StronglySorted_filter {A} (R : relation A) (P : A → Prop)
    `{∀ x, Decision (P x)} (l : list A) :
  StronglySorted R l → StronglySorted R (filter P l).
Proof.
  induction 1 as [|x l Hl IH Hx]; [constructor|].
  rewrite filter_cons. destruct (decide (P x)); [|done].
  constructor; [done|]. apply Forall_forall. intros y [_ Hy]%list_elem_of_filter.
  eapply Forall_forall in Hx; [exact Hx | done].
Qed.

Lemma sort_desc_filter {A} (key : A → nat) (P : A → Prop)
    `{∀ x, Decision (P x)} (l : list A) :
  sort_desc key (filter P l) = filter P (sort_desc key l).
Proof.
  apply (stable_sort_unique key).
  - apply sort_desc_sorted.
  - apply StronglySorted_filter, sort_desc_sorted.
  - intros n. rewrite sort_desc_stable.
    trans (filter P (filter (λ a, key a = n) (sort_desc key l))).
    + rewrite sort_desc_stable, !list_filter_filter.
      apply list_filter_iff. tauto.
    + rewrite !list_filter_filter. apply list_filter_iff. tauto.
Qed.

Lemma player_info_threshold h2h m1 m2 item :
  m1 ≤ m2 →
  player_info h2h m2 item
  = a ← player_info h2h m1 item;
    if decide (m2 ≤ Z.of_nat (pi_connections a)) then Some a else None.
Proof.
  intros Hle. destruct item as [p d]. unfold player_info.
  destruct (p_name d) as [name|]; [|done].
  destruct (h2h !! p) as [s|]; [|done].
  destruct (decide (m2 ≤ Z.of_nat (size s))) as [H2|H2].
  - rewrite !bool_decide_eq_true_2 by lia. cbn. by rewrite decide_True.
  - rewrite (bool_decide_eq_false_2 (m2 ≤ _)) by done.
    case_bool_decide; cbn; [by rewrite decide_False | done].
Qed.

Lemma omap_player_info_threshold h2h m1 m2 (pd : list (Z * PlayerData)) :
  m1 ≤ m2 →
  omap (player_info h2h m2) pd
  = filter (λ a, m2 ≤ Z.of_nat (pi_connections a))
           (omap (player_info h2h m1) pd).
Proof.
  intros Hle. induction pd as [|item pd IH]; [done|].
  cbn [omap list_omap]. rewrite (player_info_threshold h2h m1 m2 item Hle).
  destruct (player_info h2h m1 item) as [a|]; cbn [mbind option_bind];
    [|exact IH].
  rewrite filter_cons. destruct (decide _); by rewrite IH.
Qed.

Lemma omap_player_info_ids h2h min (pd : list (Z * PlayerData)) :
  pi_id <$> omap (player_info h2h min) pd `sublist_of` pd.*1.
Proof.
  induction pd as [|[p d] pd IH]; [done|]. cbn [omap list_omap].
  destruct (player_info h2h min (p, d)) as [a|] eqn:Ha.
  - apply player_info_Some in Ha as (Hid & _). cbn [fst] in Hid.
    rewrite !fmap_cons, Hid. cbn [fst]. by apply sublist_skip.
  - rewrite fmap_cons. by apply sublist_cons.
Qed.

Lemma popular_ids_NoDup pd h2h min :
  NoDup pd.*1 → NoDup (pi_id <$> get_popular_players pd h2h min).
Proof.
  intros Hnd. unfold get_popular_players. rewrite sort_desc_perm.
  eapply sublist_NoDup; [exact Hnd | apply omap_player_info_ids].
Qed.

Lemma player_info_fields h2h min p d a :
  player_info h2h min (p, d) = Some a →
  p ∈ dom h2h
  ∧ p_name d = Some (pi_name a)
  ∧ pi_country a = default (VStr "") (p_country d)
  ∧ pi_hand a = default (VStr "") (p_hand d)
  ∧ pi_height a = default VNone (p_height d)
  ∧ pi_birth_year a = default VNone (p_birth_year d)
  ∧ pi_titles a = default (VInt 0) (p_titles d).
Proof.
  unfold player_info.
  destruct (p_name d) as [name|] eqn:Hname; [|done].
  destruct (h2h !! p) as [s|] eqn:Hs; [|done].
  case_bool_decide; [|done]. intros [= <-]. cbn.
  split_and!; try done. apply elem_of_dom. by eexists.
Qed.

Lemma popular_player_origin pd h2h min a :
  a ∈ get_popular_players pd h2h min →
  ∃ d, (pi_id a, d) ∈ pd ∧ player_info h2h min (pi_id a, d) = Some a.
Proof.
  unfold get_popular_players. rewrite sort_desc_perm.
  intros ([p d] & Hin & Ha)%list_elem_of_omap.
  pose proof (player_info_Some _ _ _ _ Ha) as (Hid & _). cbn in Hid. subst p.
  by exists d.
Qed.

(** X8. For any threshold, the players returned by [get_popular_players]
    are keys of [players_data] whose dictionary has a 'name' key, have
    played a recorded match and reach the threshold (a player absent from
    [h2h_connections] is never returned, even for a threshold of 0 or less).
    Their record is read with [data.get]: the name is the value of the
    'name' key, whatever it holds; a country, hand, height, birth year or
    titles key that is present gives its value unchanged, [None] and NaN
    included; an absent country or hand gives the empty string, an absent
    height or birth year [None] and absent titles 0. With distinct keys no
    player is returned twice. *)
Theorem popular_players_well_formed pd h2h min :
  NoDup pd.*1 →
  NoDup (pi_id <$> get_popular_players pd h2h min)
  ∧ ∀ a, a ∈ get_popular_players pd h2h min →
      min ≤ Z.of_nat (pi_connections a)
      ∧ pi_connections a = size (opponents h2h (pi_id a))
      ∧ pi_id a ∈ dom h2h
      ∧ ∃ d, (pi_id a, d) ∈ pd
             ∧ p_name d = Some (pi_name a)
             ∧ pi_country a = default (VStr "") (p_country d)
             ∧ pi_hand a = default (VStr "") (p_hand d)
             ∧ pi_height a = default VNone (p_height d)
             ∧ pi_birth_year a = default VNone (p_birth_year d)
             ∧ pi_titles a = default (VInt 0) (p_titles d).
Proof.
  intros Hnd. split; [by apply popular_ids_NoDup|].
  intros a (d & Hin & Ha)%popular_player_origin.
  pose proof (player_info_Some _ _ _ _ Ha) as (_ & _ & Hc & Hmin).
  pose proof (player_info_fields _ _ _ _ _ Ha) as (Hdom & Hfields).
  cbn [fst] in Hc, Hmin. split_and!; [by rewrite Hc | done | done |].
  by exists d.
Qed.

Lemma popular_players_well_formed_witness :
  NoDup null_fields_players.*1
  ∧ ∀ a, a ∈ get_popular_players null_fields_players
               (extract_head_to_head_connections (star_matches 8)
                  null_fields_players).1 8 →
         ∃ d, (pi_id a, d) ∈ null_fields_players
              ∧ p_name d = Some (pi_name a)
              ∧ pi_country a = default (VStr "") (p_country d).
Proof.
  assert (NoDup null_fields_players.*1) as Hnd.
  { apply (bool_decide_unpack _). vm_compute. exact I. }
  split; [exact Hnd|]. intros a Ha.
  destruct (proj2 (popular_players_well_formed null_fields_players
                     (extract_head_to_head_connections (star_matches 8)
                        null_fields_players).1 8 Hnd) a Ha)
    as (_ & _ & _ & d & Hin & Hname & Hcountry & _).
  exists d. exact (conj Hin (conj Hname Hcountry)).
Defined.

(** X9. Raising the threshold only removes players: the list for a higher
    threshold is the list for a lower one without the players below the
    higher threshold, in the same order. *)
Theorem raising_threshold_filters pd h2h m1 m2 :
  m1 ≤ m2 →
  get_popular_players pd h2h m2
  = filter (λ a, m2 ≤ Z.of_nat (pi_connections a))
           (get_popular_players pd h2h m1).
Proof.
  intros Hle. unfold get_popular_players.
  by rewrite (omap_player_info_threshold h2h m1 m2 pd Hle), sort_desc_filter.
Qed.

Lemma raising_threshold_filters_witness :
  8 ≤ 10
  ∧ get_popular_players sample_players
      (extract_head_to_head_connections (star_matches 9) sample_players).1 10
    = filter (λ a, 10 ≤ Z.of_nat (pi_connections a))
        (get_popular_players sample_players
           (extract_head_to_head_connections (star_matches 9)
              sample_players).1 8).
Proof.
  assert (8 ≤ 10) as Hle by lia. split; [exact Hle|].
  exact (raising_threshold_filters sample_players _ 8 10 Hle).
Defined.

(** ** The document as a whole *)

Lemma pd_get_elem pd v d :
  NoDup pd.*1 → (v, d) ∈ pd → pd_get pd v = Some d.
Proof.
  induction pd as [|[p d'] pd IH]; [by intros _ ?%elem_of_nil|].
  cbn [fmap list_fmap fst pd_get]. intros [Hp Hnd]%NoDup_cons.
  intros [[= -> ->]|Hin]%elem_of_cons.
  - by rewrite bool_decide_eq_true_2.
  - rewrite bool_decide_eq_false_2; [by apply IH|].
    intros ->. apply Hp. apply list_elem_of_fmap. by exists (v, d).
Qed.

Lemma filter_player_details_lookup pd md ids v :
  (filter_details pd md ids).1 !! pretty v
  = if decide (v ∈ ids) then pd_get pd v else None.
Proof.
  unfold filter_details. rewrite filter_details_split. cbn [fst].
  rewrite foldl_insert_pretty_lookup, lookup_empty.
  destruct (decide _); [by destruct (pd_get pd v) | done].
Qed.

Lemma filter_player_details_key pd md ids k :
  is_Some ((filter_details pd md ids).1 !! k) → ∃ v, v ∈ ids ∧ k = pretty v.
Proof.
  unfold filter_details. rewrite filter_details_split. cbn [fst].
  apply foldl_insert_pretty_key.
Qed.

Lemma dom_of_retained {A} (m : gmap string A) (ids : list Z) :
  (∀ k, is_Some (m !! k) → ∃ v, v ∈ ids ∧ k = pretty v) →
  (∀ v, v ∈ ids → is_Some (m !! pretty v)) →
  dom m = list_to_set (pretty <$> ids).
Proof.
  intros Hkey Hall. apply set_eq. intros k.
  rewrite elem_of_dom, elem_of_list_to_set, list_elem_of_fmap. split.
  - intros (v & ? & ->)%Hkey. by exists v.
  - intros (v & -> & ?). by apply Hall.
Qed.

Lemma retained_NoDup now_year now_iso matches pd gs doc :
  NoDup pd.*1 → main now_year now_iso matches pd gs = Written doc →
  NoDup (retained doc).
Proof.
  intros Hnd (_ & Hp & _)%main_Written. unfold retained. rewrite Hp.
  rewrite fmap_take. eapply sublist_NoDup; [|apply sublist_take].
  by apply popular_ids_NoDup.
Qed.

(** X10. With distinct keys in [players_data], the four sections of the
    document describe the same players: [connections], [player_details] and
    [match_details] each have exactly one entry per candidate, under the key
    [str(id)], no candidate appears twice, and [total_players] is the number
    of candidates and of entries of each section. *)
Theorem document_sections_agree now_year now_iso matches pd gs doc :
  NoDup pd.*1 →
  main now_year now_iso matches pd gs = Written doc →
  NoDup (retained doc)
  ∧ dom (doc_connections doc) = list_to_set (pretty <$> retained doc)
  ∧ dom (doc_player_details doc) = list_to_set (pretty <$> retained doc)
  ∧ dom (doc_match_details doc) = list_to_set (pretty <$> retained doc)
  ∧ md_total_players (doc_metadata doc) = length (doc_players doc)
  ∧ size (doc_connections doc) = md_total_players (doc_metadata doc)
  ∧ size (doc_player_details doc) = md_total_players (doc_metadata doc)
  ∧ size (doc_match_details doc) = md_total_players (doc_metadata doc).
Proof.
  intros Hnd Hmain.
  pose proof (retained_NoDup _ _ _ _ _ _ Hnd Hmain) as Hret.
  pose proof (main_Written _ _ _ _ _ _ Hmain)
    as (_ & Hp & (g & Hg & Hc) & Hd & Hm).
  cbn zeta in Hc, Hd, Hm.
  apply merged_graph_Some in Hg as (attr & _ & ->).
  assert (∀ v, v ∈ retained doc →
    ∃ d, (v, d) ∈ pd
         ∧ v ∈ dom (extract_head_to_head_connections matches pd).1) as Hv.
  { intros v Hin.
    destruct (retained_popular _ _ _ _ _ _ v Hmain Hin) as (d & ? & _ & Hsz).
    exists d. split; [done|]. unfold opponents in Hsz. apply elem_of_dom.
    destruct (_ !! v); [done|]. cbn [default] in Hsz.
    rewrite size_empty in Hsz. lia. }
  assert (dom (doc_connections doc) = list_to_set (pretty <$> retained doc))
    as Hdc.
  { apply dom_of_retained.
    - intros k Hk. rewrite Hc in Hk.
      apply filter_connections_key in Hk as (v & ? & ->). exists v.
      by rewrite <- elem_of_top_player_ids.
    - intros v Hin. rewrite Hc, filter_connections_lookup.
      rewrite decide_True by by apply elem_of_top_player_ids.
      destruct (Hv v Hin) as (d & _ & Hdom).
      rewrite build_connection_graph_lookup.
      rewrite decide_True; [by eexists|]. rewrite !elem_of_union. auto. }
  assert (dom (doc_player_details doc) = list_to_set (pretty <$> retained doc))
    as Hdp.
  { apply dom_of_retained.
    - intros k Hk. rewrite Hd in Hk.
      apply filter_player_details_key in Hk as (v & ? & ->). exists v.
      by rewrite <- elem_of_top_player_ids.
    - intros v Hin. rewrite Hd, filter_player_details_lookup.
      rewrite decide_True by by apply elem_of_top_player_ids.
      destruct (Hv v Hin) as (d & Hd' & _).
      rewrite (pd_get_elem pd v d Hnd Hd'). by eexists. }
  assert (dom (doc_match_details doc) = list_to_set (pretty <$> retained doc))
    as Hdm.
  { apply dom_of_retained.
    - intros k Hk. rewrite Hm in Hk.
      apply filter_match_details_key in Hk as (v & ? & ->). exists v.
      by rewrite <- elem_of_top_player_ids.
    - intros v Hin. rewrite Hm, filter_match_details_lookup.
      rewrite decide_True by by apply elem_of_top_player_ids.
      destruct (Hv v Hin) as (d & _ & Hdom).
      rewrite <- h2h_dom_details in Hdom. apply elem_of_dom in Hdom as [l ->].
      by eexists. }
  assert (md_total_players (doc_metadata doc) = length (doc_players doc))
    as Htot.
  { unfold main in Hmain. case_bool_decide; [done|].
    destruct (extract_head_to_head_connections matches pd) as [h2h md].
    destruct (extract_attribute_connections pd); [|done].
    destruct (filter_details _ _ _) as [fpd fmd].
    by injection Hmain as <-. }
  assert (size (list_to_set (pretty <$> retained doc) : gset string)
          = length (doc_players doc)) as Hsize.
  { rewrite size_list_to_set.
    - unfold retained. by rewrite !length_fmap.
    - by apply (NoDup_fmap_2 pretty). }
  split_and!; try done.
  - by rewrite <- size_dom, Hdc, Hsize.
  - by rewrite <- size_dom, Hdp, Hsize.
  - by rewrite <- size_dom, Hdm, Hsize.
Qed.

Lemma document_sections_agree_witness :
  NoDup sample_players.*1
  ∧ ∃ doc, main 2024 "" (star_matches 8) sample_players [] = Written doc
           ∧ size (doc_connections doc) = md_total_players (doc_metadata doc).
Proof.
  assert (NoDup sample_players.*1) as Hnd.
  { apply (bool_decide_unpack _). vm_compute. exact I. }
  split; [exact Hnd|]. eexists. split; [vm_compute; reflexivity|].
  apply (document_sections_agree 2024 "" (star_matches 8) sample_players []
           _ Hnd).
  vm_compute. reflexivity.
Defined.

(** X11. With distinct keys in [players_data], the [player_details] entry of
    a candidate is its value in [players_data], unchanged, and the
    candidate's own record is read from that value with [data.get]: the
    name is the value of the 'name' key; a present country, hand, height,
    birth year or titles key gives its value, [None] and NaN included; an
    absent country or hand gives the empty string, an absent height or birth
    year [None], absent titles 0. *)
Theorem candidate_matches_player_details now_year now_iso matches pd gs doc a :
  NoDup pd.*1 →
  main now_year now_iso matches pd gs = Written doc →
  a ∈ doc_players doc →
  ∃ d, (pi_id a, d) ∈ pd
       ∧ doc_player_details doc !! pretty (pi_id a) = Some d
       ∧ p_name d = Some (pi_name a)
       ∧ pi_country a = default (VStr "") (p_country d)
       ∧ pi_hand a = default (VStr "") (p_hand d)
       ∧ pi_height a = default VNone (p_height d)
       ∧ pi_birth_year a = default VNone (p_birth_year d)
       ∧ pi_titles a = default (VInt 0) (p_titles d).
Proof.
  intros Hnd Hmain Ha.
  pose proof (main_Written _ _ _ _ _ _ Hmain) as (_ & Hp & _ & Hd & _).
  cbn zeta in Hd.
  assert (pi_id a ∈ retained doc) as Hret
    by (apply list_elem_of_fmap; by exists a).
  rewrite Hp in Ha. apply subseteq_take in Ha.
  apply popular_player_origin in Ha as (d & Hin & Hinfo).
  apply player_info_fields in Hinfo as (_ & Hfields).
  exists d. split; [done|]. split; [|done].
  rewrite Hd, filter_player_details_lookup.
  rewrite decide_True by by apply elem_of_top_player_ids.
  by apply pd_get_elem.
Qed.

Lemma candidate_matches_player_details_witness :
  NoDup null_fields_players.*1
  ∧ ∃ doc a, main 2024 "" (star_matches 8) null_fields_players [] = Written doc
             ∧ a ∈ doc_players doc
             ∧ ∃ d, (pi_id a, d) ∈ null_fields_players
                    ∧ doc_player_details doc !! pretty (pi_id a) = Some d
                    ∧ p_name d = Some (pi_name a)
                    ∧ pi_country a = default (VStr "") (p_country d).
Proof.
  assert (NoDup null_fields_players.*1) as Hnd.
  { apply (bool_decide_unpack _). vm_compute. exact I. }
  split; [exact Hnd|]. eexists _, _.
  split; [vm_compute; reflexivity|]. split; [by left|].
  destruct (candidate_matches_player_details 2024 "" (star_matches 8)
              null_fields_players [] _ _ Hnd ltac:(vm_compute; reflexivity)
              ltac:(by left)) as (d & Hin & Hd & Hname & Hcountry & _).
  exists d. exact (conj Hin (conj Hd (conj Hname Hcountry))).
Defined.

(** X12. In the document, the match details of a player refer only to
    opponents listed for that player: every serialized match detail of a key
    has its opponent id in the [direct_opponents] list of the
    [connections] entry of the same key. *)
Theorem match_details_refer_to_listed_opponents
    now_year now_iso matches pd gs doc k l :
  main now_year now_iso matches pd gs = Written doc →
  doc_match_details doc !! k = Some l →
  ∃ c, doc_connections doc !! k = Some c
       ∧ ∀ info, info ∈ l → mi_opponent_id info ∈ direct_opponents c.
Proof.
  intros Hmain Hl.
  pose proof (main_Written _ _ _ _ _ _ Hmain)
    as (_ & _ & (g & Hg & Hc) & _ & Hm).
  cbn zeta in Hc, Hm.
  apply merged_graph_Some in Hg as (attr & _ & ->).
  assert (is_Some (doc_match_details doc !! k)) as Hk by by eexists.
  rewrite Hm in Hk. apply filter_match_details_key in Hk as (v & Hv & ->).
  rewrite Hm, filter_match_details_lookup, decide_True in Hl by done.
  destruct ((extract_head_to_head_connections matches pd).2 !! v)
    as [full|] eqn:Hfull; [|done]. injection Hl as <-.
  assert (v ∈ dom (extract_head_to_head_connections matches pd).1) as Hdom.
  { rewrite <- h2h_dom_details. apply elem_of_dom. by eexists. }
  eexists. split.
  - rewrite Hc, filter_connections_lookup, decide_True by done.
    rewrite build_connection_graph_lookup.
    rewrite decide_True; [reflexivity|]. rewrite !elem_of_union. auto.
  - intros info Hin%subseteq_take.
    cbn [connections_of direct_opponents]. apply elem_of_elements.
    fold (opponents (extract_head_to_head_connections matches pd).1 v).
    apply h2h_opponents_met.
    pose proof (match_details_in_order matches pd v) as Hord.
    rewrite Hfull in Hord. change (full = mjoin (row_details v <$> matches)) in Hord.
    rewrite Hord in Hin.
    apply list_elem_of_join in Hin as (rows & Hin & Hrows).
    apply list_elem_of_fmap in Hrows as (m & -> & Hm').
    exists m. split; [done|]. apply row_details_opponent.
    apply list_elem_of_fmap. by exists info.
Qed.

Lemma match_details_refer_to_listed_opponents_witness :
  ∃ doc l c,
    main 2024 "" (star_matches 8) sample_players [] = Written doc
    ∧ doc_match_details doc !! pretty 1 = Some l
    ∧ doc_connections doc !! pretty 1 = Some c
    ∧ ∀ info, info ∈ l → mi_opponent_id info ∈ direct_opponents c.
Proof.
  eexists _, _.
  destruct (match_details_refer_to_listed_opponents 2024 ""
              (star_matches 8) sample_players [] _ (pretty 1) _
              ltac:(vm_compute; reflexivity) ltac:(vm_compute; reflexivity))
    as (c & Hc & Hl).
  exists c. split; [vm_compute; reflexivity|].
  split; [vm_compute; reflexivity|]. exact (conj Hc Hl).
Defined.
